(** * A shallow embedding of the statsd client (options.go, statsd.go)

    Go strings are byte sequences and are embedded as [string]; slices are
    lists; [int] and [time.Duration] are [Z]; [float32] values are embedded
    in the primitive binary64 floats (the embedding is exact and preserves
    [==] and [>]); a call that panics yields [Fail].  The connection
    ([conn], conn.go) is a heap object shared by a client and its clones:
    clients hold a location into a store of connections. *)

From Stdlib Require Import String Ascii List ZArith Lia Bool DecimalString.
From Stdlib Require Import Floats.PrimFloat.
From stdpp Require Import gmap strings.
Import ListNotations.

Open Scope string_scope.
Open Scope Z_scope.

#[local] Arguments String.append !s1 s2 : simpl nomatch.

(** ** Panics and results *)

(** How a call can fail to return: an explicit [panic(msg)] of the source,
    a panic raised by the Go runtime (index or slice out of range, call of a
    nil function), or a goroutine blocked for ever on a mutex. *)
Inductive fault : Type :=
| Panic (msg : string)
| RuntimeError (msg : string)
| Deadlock.

Inductive result (A : Type) : Type :=
| Ok (a : A)
| Fail (f : fault).
Arguments Ok {A} a.
Arguments Fail {A} f.

Definition rbind {A B : Type} (r : result A) (k : A -> result B) : result B :=
  match r with
  | Ok a => k a
  | Fail f => Fail f
  end.

Fixpoint rmapM {A B : Type} (f : A -> result B) (l : list A) : result (list B) :=
  match l with
  | [] => Ok []
  | x :: l' => rbind (f x) (fun y => rbind (rmapM f l') (fun ys => Ok (y :: ys)))
  end.

(** ** Strings (package strings, string slicing) *)

(** [s[n:]]: the runtime panics when [n > len(s)]. *)
Fixpoint slice_from (n : nat) (s : string) : result string :=
  match n, s with
  | O, _ => Ok s
  | S _, EmptyString => Fail (RuntimeError "slice bounds out of range")
  | S n', String _ s' => slice_from n' s'
  end.

(** [strings.Split(s, sep)] for a separator of one byte, which is how the
    source calls it: the fields of [s] between the occurrences of [sep];
    the result is never empty, it is returned as its first field and the
    others. *)
Fixpoint split_fields (sep : ascii) (s : string) : string * list string :=
  match s with
  | EmptyString => (EmptyString, [])
  | String c s' =>
      let (hd, tl) := split_fields sep s' in
      if Ascii.eqb c sep then (EmptyString, hd :: tl) else (String c hd, tl)
  end.

Definition Split (s : string) (sep : ascii) : list string :=
  let (hd, tl) := split_fields sep s in hd :: tl.

(** [strings.HasSuffix] and [strings.TrimSuffix]. *)
Definition HasSuffix (s suffix : string) : bool :=
  (String.length suffix <=? String.length s)%nat &&
  String.eqb (substring (String.length s - String.length suffix)
                        (String.length suffix) s) suffix.

Definition TrimSuffix (s suffix : string) : string :=
  if HasSuffix s suffix
  then substring 0 (String.length s - String.length suffix) s
  else s.

(** [kv[i]] on a slice of strings. *)
Definition index (kv : list string) (i : nat) : result string :=
  match nth_error kv i with
  | Some x => Ok x
  | None => Fail (RuntimeError "index out of range")
  end.

(** ** Tags (options.go) *)

Record tag : Type := mk_tag { K : string; V : string }.

(** [type TagFormat uint8], with [InfluxDB = iota + 1] and [Datadog] next;
    0 is the unset format. *)
Definition TagFormat : Type := N.
Definition InfluxDB : TagFormat := 1%N.
Definition Datadog : TagFormat := 2%N.

Definition even_args_msg : string :=
  "statsd: Tags only accepts an even number of arguments".

(** The inner loop of [mergeTags]: every entry of [output] whose key is [key]
    gets the value [val]; the flag is [exists]. *)
Fixpoint overwrite (key val : string) (output : list tag) : bool * list tag :=
  match output with
  | [] => (false, [])
  | t :: rest =>
      let (found, rest') := overwrite key val rest in
      if String.eqb key (K t)
      then (true, {| K := K t; V := val |} :: rest')
      else (found, t :: rest')
  end.

(** The outer loop of [mergeTags], over the pairs [newTags[2*i]],
    [newTags[2*i+1]] for [i < len(newTags)/2]. *)
Fixpoint merge_loop (output : list tag) (newTags : list string) : list tag :=
  match newTags with
  | key :: val :: rest =>
      let (found, output') := overwrite key val output in
      merge_loop (if found then output'
                  else output' ++ [{| K := key; V := val |}]) rest
  | _ => output
  end.

Definition mergeTags (tags : list tag) (newTags : list string)
  : result (list tag) :=
  if negb (Nat.eqb (length newTags mod 2) 0) then Fail (Panic even_args_msg)
  else if Nat.eqb (length newTags) 0 then Ok tags
  else Ok (merge_loop (map (fun t => {| K := K t; V := V t |}) tags) newTags).

(** [joinFuncs]: the two encoders, written as the loops over a buffer that
    they are. *)
Definition joinInfluxDB (tags : list tag) : string :=
  fold_left (fun buf t => buf +:+ "," +:+ K t +:+ "=" +:+ V t) tags "".

Definition joinDatadog (tags : list tag) : string :=
  fst (fold_left
         (fun (st : string * bool) t =>
            let (buf, first) := st in
            let buf := if first then buf else buf +:+ "," in
            (buf +:+ K t +:+ ":" +:+ V t, false))
         tags ("|#", true)).

Definition joinFuncs (tf : TagFormat) : option (list tag -> string) :=
  if N.eqb tf InfluxDB then Some joinInfluxDB
  else if N.eqb tf Datadog then Some joinDatadog
  else None.

(** [splitFuncs]: both decoders drop the prefix, split on commas, and split
    every pair on its separator, taking [kv[0]] and [kv[1]]. *)
Definition split_pair (sep : ascii) (pair : string) : result tag :=
  let kv := Split pair sep in
  rbind (index kv 0) (fun k =>
  rbind (index kv 1) (fun v => Ok {| K := k; V := v |})).

Definition splitInfluxDB (s : string) : result (list tag) :=
  rbind (slice_from 1 s) (fun s =>
  rmapM (split_pair "=") (Split s ",")).

Definition splitDatadog (s : string) : result (list tag) :=
  rbind (slice_from 2 s) (fun s =>
  rmapM (split_pair ":") (Split s ",")).

Definition splitFuncs (tf : TagFormat) : option (string -> result (list tag)) :=
  if N.eqb tf InfluxDB then Some splitInfluxDB
  else if N.eqb tf Datadog then Some splitDatadog
  else None.

Definition nil_func : fault :=
  RuntimeError "invalid memory address or nil pointer dereference".

Definition joinTags (tf : TagFormat) (tags : list tag) : result string :=
  if Nat.eqb (length tags) 0 || N.eqb tf 0 then Ok ""
  else match joinFuncs tf with
       | Some join => Ok (join tags)
       | None => Fail nil_func
       end.

(** The decoded slice is [nil] in the first case; a nil slice and an empty
    one are the same list. *)
Definition splitTags (tf : TagFormat) (tags : string) : result (list tag) :=
  if Nat.eqb (String.length tags) 0 || N.eqb tf 0 then Ok []
  else match splitFuncs tf with
       | Some split => split tags
       | None => Fail nil_func
       end.

(** ** The connection (conn.go is not part of the sources) *)

Definition error : Type := string.

(** Modelled from the spec: the Transport of conn.go ([conn.w], an
    [io.WriteCloser]), "an open, writable network connection plus a close
    operation".  [t_writes] are the payloads of the calls of [Write], in
    order; [t_closes] counts the calls of [Close]; [t_faults] is what the
    network will answer to the next calls ([None]: success), since "both may
    fail independently per call". *)
Record Transport : Type := mk_Transport {
  t_open : bool;
  t_writes : list string;
  t_closes : nat;
  t_faults : list (option error)
}.

(** Modelled from the spec: the answer of the network to the next call on
    the Transport, a "best-effort single send" that "may fail". *)
Definition next_fault (t : Transport) : option error * list (option error) :=
  match t_faults t with
  | [] => (None, [])
  | r :: rest => (r, rest)
  end.

(** Modelled from the spec: "write(bytes)", one datagram or one write
    call. *)
Definition Write (t : Transport) (p : string) : option error * Transport :=
  let (r, rest) := next_fault t in
  (r, {| t_open := t_open t; t_writes := t_writes t ++ [p];
         t_closes := t_closes t; t_faults := rest |}).

(** Modelled from the spec: the "close operation" of the Transport,
    [c.conn.w.Close()] in statsd.go. *)
Definition Close_w (t : Transport) : option error * Transport :=
  let (r, rest) := next_fault t in
  (r, {| t_open := false; t_writes := t_writes t;
         t_closes := S (t_closes t); t_faults := rest |}).

(** Modelled from the spec: the struct [conn] of conn.go, the "Packet Buffer
    state { pendingBytes, maxSize, transport, closed }".  statsd.go names
    the fields [tagFormat], [mu], [w] and [closed]; [mu] is [true] while the
    mutex is held.  [errorHandler] is the configured callback (by name) and
    [handled] the errors it has received, the Error Sink. *)
Record conn : Type := mk_conn {
  tagFormat : TagFormat;
  mu : bool;
  closed : bool;
  w : Transport;
  pendingBytes : string;
  maxSize : Z;
  errorHandler : option string;
  handled : list error
}.

Definition set_mu (b : bool) (c : conn) : conn :=
  mk_conn (tagFormat c) b (closed c) (w c) (pendingBytes c) (maxSize c)
          (errorHandler c) (handled c).
Definition set_closed (b : bool) (c : conn) : conn :=
  mk_conn (tagFormat c) (mu c) b (w c) (pendingBytes c) (maxSize c)
          (errorHandler c) (handled c).
Definition set_w (t : Transport) (c : conn) : conn :=
  mk_conn (tagFormat c) (mu c) (closed c) t (pendingBytes c) (maxSize c)
          (errorHandler c) (handled c).
Definition set_pendingBytes (p : string) (c : conn) : conn :=
  mk_conn (tagFormat c) (mu c) (closed c) (w c) p (maxSize c)
          (errorHandler c) (handled c).
Definition set_handled (h : list error) (c : conn) : conn :=
  mk_conn (tagFormat c) (mu c) (closed c) (w c) (pendingBytes c) (maxSize c)
          (errorHandler c) h.

Definition len (s : string) : Z := Z.of_nat (String.length s).

(** Modelled from the spec: [conn.handleError] of conn.go, the Error Sink:
    "receives every Transport failure and forwards it to a user-supplied
    callback" (default: discard). *)
Definition handleError (err : option error) (c : conn) : conn :=
  match err, errorHandler c with
  | Some e, Some _ => set_handled (handled c ++ [e]) c
  | _, _ => c
  end.

(** Modelled from the spec: [conn.flush] of conn.go.  "flush(deadline): if
    buffer empty, no-op; otherwise writes the accumulated bytes to the
    Transport in one operation, clears the buffer regardless of write
    outcome, and forwards any write error to the Error Sink"; "further
    append/flush calls after close are no-ops".  The deadline is reserved. *)
Definition flush (deadline : Z) (c : conn) : conn :=
  if closed c then c
  else if len (pendingBytes c) =? 0 then c
  else let (err, t) := Write (w c) (pendingBytes c) in
       handleError err (set_pendingBytes "" (set_w t c)).

(** Modelled from the spec: the buffer after a line is added to it, "separator
    between lines is a single newline", none after the last line (the
    scenario's 7+1+7 = 15 pending bytes). *)
Definition push_line (line : string) (c : conn) : conn :=
  if len (pendingBytes c) =? 0 then set_pendingBytes line c
  else set_pendingBytes (pendingBytes c +:+ String "010" line) c.

(** Modelled from the spec: the append of conn.go's Packet Buffer.
    "append(line): if len(pendingBytes) + len(line) + 1 (separator) > maxSize
    and pendingBytes is non-empty, flush first, then append; if the line
    alone exceeds maxSize, append it anyway as a standalone oversized write
    (never split a metric line across two packets)"; the bound on
    [pendingBytes] is broken only "transiently", so the oversized line is
    written at once; after close the call is a no-op. *)
Definition append (line : string) (c : conn) : conn :=
  if closed c then c
  else
    let c1 := if (len (pendingBytes c) + len line + 1 >? maxSize c)
                 && negb (len (pendingBytes c) =? 0)
              then flush 0 c else c in
    let c2 := push_line line c1 in
    if len line >? maxSize c then flush 0 c2 else c2.

(** The three statements of [Client.Close] (statsd.go) between [Lock] and
    [Unlock], on the connection they act on. *)
Definition close_transport (c : conn) : conn :=
  let (err, t) := Close_w (w c) in handleError err (set_w t c).

Definition close_conn (c : conn) : conn :=
  set_closed true (close_transport (flush 0 c)).

(** Modelled from the spec: the Packet Buffer that conn.go creates "once per
    client instance at construction", open and empty, owning its Transport. *)
Definition new_buffer (tf : TagFormat) (max : Z) (h : option string)
  (t : Transport) : conn :=
  mk_conn tf false false t "" max h [].

(** The states a Packet Buffer can be in: created, then appended to, flushed
    and closed in any order. *)
Inductive reachable : conn -> Prop :=
| reach_new tf max h t : reachable (new_buffer tf max h t)
| reach_append line c : reachable c -> reachable (append line c)
| reach_flush d c : reachable c -> reachable (flush d c)
| reach_close c : reachable c -> reachable (close_conn c).

(** ** The world: the store of connections and the environment *)

(** [conns] is the heap of connections ([*conn] is a location, [None] is
    nil); [rand] and [rand_next] are the pseudo-random source read by
    [randFloat]; [clock] is what [now()] returns, in nanoseconds; [dial] is
    the network as [newConn] finds it. *)
Record World : Type := mk_World {
  conns : gmap nat conn;
  rand : nat -> float;
  rand_next : nat;
  clock : Z;
  dial : string -> string -> error + Transport
}.

Definition set_conns (h : gmap nat conn) (wd : World) : World :=
  mk_World h (rand wd) (rand_next wd) (clock wd) (dial wd).

Definition M (A : Type) : Type := World -> result (A * World).

Definition ret {A : Type} (a : A) : M A := fun wd => Ok (a, wd).

Definition bind {A B : Type} (m : M A) (k : A -> M B) : M B :=
  fun wd => match m wd with
            | Ok (a, wd') => k a wd'
            | Fail f => Fail f
            end.

Definition fail {A : Type} (f : fault) : M A := fun _ => Fail f.

Definition lift {A : Type} (r : result A) : M A :=
  fun wd => match r with
            | Ok a => Ok (a, wd)
            | Fail f => Fail f
            end.

Notation "x <- m ;; k" := (bind m (fun x => k))
  (at level 100, m at next level, right associativity).
Notation "m ;;; k" := (bind m (fun _ => k))
  (at level 100, right associativity).

(** Reading and writing through a [*conn]. *)
Definition get_conn (p : option nat) : M conn :=
  fun wd => match p with
            | None => Fail nil_func
            | Some l => match conns wd !! l with
                        | Some c => Ok (c, wd)
                        | None => Fail nil_func
                        end
            end.

Definition put_conn (p : option nat) (c : conn) : M unit :=
  fun wd => match p with
            | None => Fail nil_func
            | Some l => Ok (tt, set_conns (<[l := c]> (conns wd)) wd)
            end.

Definition modify_conn (p : option nat) (f : conn -> conn) : M unit :=
  c <- get_conn p ;; put_conn p (f c).

(** [sync.Mutex]: with one goroutine, locking a held mutex blocks for ever,
    and unlocking a free one is a fatal error. *)
Definition Lock (p : option nat) : M unit :=
  c <- get_conn p ;;
  if mu c then fail Deadlock else put_conn p (set_mu true c).

Definition Unlock (p : option nat) : M unit :=
  c <- get_conn p ;;
  if mu c then put_conn p (set_mu false c)
  else fail (RuntimeError "sync: unlock of unlocked mutex").

(** Modelled from the spec: [randFloat] of conn.go, the "pseudo-random
    draw compared against a configured rate" of the sampling gate: the next
    number of the random source. *)
Definition randFloat : M float :=
  fun wd => Ok (rand wd (rand_next wd),
                mk_World (conns wd) (rand wd) (S (rand_next wd)) (clock wd)
                         (dial wd)).

(** Modelled from the spec: [now] of conn.go, the clock that a timing
    reads. *)
Definition now : M Z := fun wd => Ok (clock wd, wd).

(** ** Configuration and options (options.go) *)

Record clientConfig : Type := mk_clientConfig {
  cc_Muted : bool;
  cc_Rate : float;
  cc_Prefix : string;
  cc_Tags : list tag
}.

Record connConfig : Type := mk_connConfig {
  cn_Addr : string;
  cn_ErrorHandler : option string;
  cn_FlushPeriod : Z;
  cn_MaxPacketSize : Z;
  cn_Network : string;
  cn_TagFormat : TagFormat
}.

Record config : Type := mk_config {
  cfg_Conn : connConfig;
  cfg_Client : clientConfig
}.

(** The type [Option], a function on a pointer to a [config]: what the
    function does to the configuration it is given, or the panic it ends
    with. *)
Definition Option : Type := config -> result config.

Definition on_Conn (f : connConfig -> connConfig) : Option :=
  fun c => Ok (mk_config (f (cfg_Conn c)) (cfg_Client c)).
Definition on_Client (f : clientConfig -> clientConfig) : Option :=
  fun c => Ok (mk_config (cfg_Conn c) (f (cfg_Client c))).

Definition Address (addr : string) : Option :=
  on_Conn (fun n => mk_connConfig addr (cn_ErrorHandler n) (cn_FlushPeriod n)
                      (cn_MaxPacketSize n) (cn_Network n) (cn_TagFormat n)).

Definition ErrorHandler (h : option string) : Option :=
  on_Conn (fun n => mk_connConfig (cn_Addr n) h (cn_FlushPeriod n)
                      (cn_MaxPacketSize n) (cn_Network n) (cn_TagFormat n)).

Definition FlushPeriod (p : Z) : Option :=
  on_Conn (fun n => mk_connConfig (cn_Addr n) (cn_ErrorHandler n) p
                      (cn_MaxPacketSize n) (cn_Network n) (cn_TagFormat n)).

Definition MaxPacketSize (n : Z) : Option :=
  on_Conn (fun c => mk_connConfig (cn_Addr c) (cn_ErrorHandler c)
                      (cn_FlushPeriod c) n (cn_Network c) (cn_TagFormat c)).

Definition Network (network : string) : Option :=
  on_Conn (fun n => mk_connConfig (cn_Addr n) (cn_ErrorHandler n)
                      (cn_FlushPeriod n) (cn_MaxPacketSize n) network
                      (cn_TagFormat n)).

Definition Mute (b : bool) : Option :=
  on_Client (fun c => mk_clientConfig b (cc_Rate c) (cc_Prefix c) (cc_Tags c)).

Definition SampleRate (rate : float) : Option :=
  on_Client (fun c => mk_clientConfig (cc_Muted c) rate (cc_Prefix c)
                        (cc_Tags c)).

Definition Prefix (p : string) : Option :=
  on_Client (fun c => mk_clientConfig (cc_Muted c) (cc_Rate c)
                        (cc_Prefix c +:+ TrimSuffix p "." +:+ ".")
                        (cc_Tags c)).

Definition TagsFormat (tf : TagFormat) : Option :=
  on_Conn (fun n => mk_connConfig (cn_Addr n) (cn_ErrorHandler n)
                      (cn_FlushPeriod n) (cn_MaxPacketSize n) (cn_Network n)
                      tf).

(** [Tags] panics when it is called, not when the option is applied. *)
Definition Tags (tags : list string) : result Option :=
  if negb (Nat.eqb (length tags mod 2) 0) then Fail (Panic even_args_msg)
  else Ok (fun c =>
             if Nat.eqb (length tags) 0 then Ok c
             else rbind (mergeTags [] tags) (fun merged =>
                  Ok (mk_config (cfg_Conn c)
                        (mk_clientConfig (cc_Muted (cfg_Client c))
                           (cc_Rate (cfg_Client c)) (cc_Prefix (cfg_Client c))
                           merged)))).

(** [for _, o := range opts { o(conf) }] *)
Fixpoint apply_opts (opts : list Option) (conf : config) : result config :=
  match opts with
  | [] => Ok conf
  | o :: rest => rbind (o conf) (apply_opts rest)
  end.

(** ** The client (statsd.go) *)

(** The [interface{}] values that a metric takes. *)
Inductive value : Type :=
| VInt (z : Z)
| VFloat (f : float)
| VString (s : string).

Record Client : Type := mk_Client {
  c_conn : option nat;
  c_muted : bool;
  c_rate : float;
  c_prefix : string;
  c_tagFormat : TagFormat;
  c_tags : list tag
}.

(** [type Timing struct { start time.Time; c *Client }]; clients are never
    modified once built, so that the client stands for the pointer. *)
Record TimingObj : Type := mk_Timing {
  start : Z;
  t_c : Client
}.

Definition default_config : config :=
  mk_config
    (mk_connConfig ":8125" None (100 * 1000000) 1440 "udp" 0%N)
    (mk_clientConfig false 1%float "" []).

(** [time.Time.Sub] saturates at the bounds of [time.Duration] (int64). *)
Definition Sub (t u : Z) : Z :=
  Z.max (- 2 ^ 63) (Z.min (2 ^ 63 - 1) (t - u)).

Section Facade.

(** The shortest decimal form of a floating-point number that reads back
    as the same number (strconv), left open. *)
Variable formatFloat : float -> string.

Definition formatValue (n : value) : string :=
  match n with
  | VInt z => NilZero.string_of_int (Z.to_int z)
  | VFloat f => formatFloat f
  | VString s => s
  end.

(** Modelled from the spec: the Line Encoder of conn.go, "bucket:value|type
    optionally followed by |@rate when rate is not 1, optionally followed by
    the tag suffix"; "integers render without decimal point". *)
Definition encodeLine (bucket : string) (n : value) (typ : string)
  (rate : float) (tags : string) : string :=
  bucket +:+ ":" +:+ formatValue n +:+ "|" +:+ typ
  +:+ (if negb (PrimFloat.eqb rate 1%float) then "|@" +:+ formatFloat rate
       else "")
  +:+ tags.

(** Modelled from the spec: [conn.metric] of conn.go, the core's
    "write(encodedLine)": "every public operation acquires the buffer's
    exclusive lock for its full duration"; the line of the (prefixed) bucket
    is appended to the Packet Buffer. *)
Definition conn_metric (p : option nat) (prefix bucket : string) (n : value)
  (typ : string) (rate : float) (tags : string) : M unit :=
  Lock p ;;;
  modify_conn p (append (encodeLine (prefix +:+ bucket) n typ rate tags)) ;;;
  Unlock p.

(** Modelled from the spec: [conn.gauge] of conn.go, a line of type [g]. *)
Definition conn_gauge (p : option nat) (prefix bucket : string) (v : value)
  (tags : string) : M unit :=
  conn_metric p prefix bucket v "g" 1%float tags.

(** Modelled from the spec: [conn.unique] of conn.go, a line of type [s]. *)
Definition conn_unique (p : option nat) (prefix bucket : string) (v : string)
  (tags : string) : M unit :=
  conn_metric p prefix bucket (VString v) "s" 1%float tags.

(** Modelled from the spec: [newConn] of conn.go, "open(network, address):
    establishes the connection; fails with a ConnectionError carrying the
    underlying cause"; on success the Packet Buffer is "created once per
    client instance at construction" and owns the Transport.  The spec says
    nothing of the connection returned with an error: nil here. *)
Definition newConn (conf : connConfig) (muted : bool)
  : M (option nat * option error) :=
  fun wd =>
    match dial wd (cn_Network conf) (cn_Addr conf) with
    | inl e => Ok ((None, Some e), wd)
    | inr t =>
        let l := fresh (dom (conns wd)) in
        Ok ((Some l, None),
            set_conns (<[l := new_buffer (cn_TagFormat conf)
                                (cn_MaxPacketSize conf)
                                (cn_ErrorHandler conf) t]> (conns wd)) wd)
    end.

Definition New (opts : list Option) : M (Client * option error) :=
  conf <- lift (apply_opts opts default_config) ;;
  r <- newConn (cfg_Conn conf) (cc_Muted (cfg_Client conf)) ;;
  let (conn, err) := r in
  let c := mk_Client conn (cc_Muted (cfg_Client conf)) 0%float "" 0%N [] in
  match err with
  | Some e =>
      ret (mk_Client (c_conn c) true (c_rate c) (c_prefix c) (c_tagFormat c)
             (c_tags c), Some e)
  | None =>
      ret (mk_Client (c_conn c) (c_muted c) (cc_Rate (cfg_Client conf))
             (cc_Prefix (cfg_Client conf)) (c_tagFormat c)
             (cc_Tags (cfg_Client conf)), None)
  end.

Definition Clone (c : Client) (opts : list Option) : result Client :=
  rbind (apply_opts opts
           (mk_config (mk_connConfig "" None 0 0 "" 0%N)
              (mk_clientConfig false (c_rate c) (c_prefix c) (c_tags c))))
        (fun conf =>
           let clone :=
             mk_Client (c_conn c) (c_muted c || cc_Muted (cfg_Client conf))
               (cc_Rate (cfg_Client conf)) (cc_Prefix (cfg_Client conf)) 0%N
               (cc_Tags (cfg_Client conf)) in
           Ok (mk_Client (c_conn c) (c_muted clone) (c_rate clone)
                 (c_prefix clone) (c_tagFormat clone) (c_tags clone))).

(** [c.muted || (c.rate != 1 && randFloat() > c.rate)], with the
    short-circuits. *)
Definition skip (c : Client) : M bool :=
  if c_muted c then ret true
  else if negb (PrimFloat.eqb (c_rate c) 1%float)
       then r <- randFloat ;; ret (PrimFloat.ltb (c_rate c) r)
       else ret false.

(** [joinTags(c.conn.tagFormat, mergeTags(c.tags, tags))]: the call of
    [mergeTags] comes first, the field [c.conn.tagFormat] is read when
    [joinTags] is called. *)
Definition tagstr_of (c : Client) (tags : list string) : M string :=
  merged <- lift (mergeTags (c_tags c) tags) ;;
  cn <- get_conn (c_conn c) ;;
  lift (joinTags (tagFormat cn) merged).

Definition Count (c : Client) (bucket : string) (n : value)
  (tags : list string) : M unit :=
  s <- skip c ;;
  if s then ret tt
  else tagstr <- tagstr_of c tags ;;
       conn_metric (c_conn c) (c_prefix c) bucket n "c" (c_rate c) tagstr.

Definition Increment (c : Client) (bucket : string) : M unit :=
  Count c bucket (VInt 1) [].

Definition Gauge (c : Client) (bucket : string) (v : value)
  (tags : list string) : M unit :=
  s <- skip c ;;
  if s then ret tt
  else tagstr <- tagstr_of c tags ;;
       conn_gauge (c_conn c) (c_prefix c) bucket v tagstr.

Definition Timing (c : Client) (bucket : string) (v : value)
  (tags : list string) : M unit :=
  s <- skip c ;;
  if s then ret tt
  else tagstr <- tagstr_of c tags ;;
       conn_metric (c_conn c) (c_prefix c) bucket v "ms" (c_rate c) tagstr.

Definition Histogram (c : Client) (bucket : string) (v : value)
  (tags : list string) : M unit :=
  s <- skip c ;;
  if s then ret tt
  else tagstr <- tagstr_of c tags ;;
       conn_metric (c_conn c) (c_prefix c) bucket v "h" (c_rate c) tagstr.

Definition NewTiming (c : Client) : M TimingObj :=
  t <- now ;; ret (mk_Timing t c).

Definition Duration (t : TimingObj) : M Z :=
  n <- now ;; ret (Sub n (start t)).

(** [t.c.Timing(bucket, int(t.Duration()/time.Millisecond))]; the division
    of Go truncates. *)
Definition Send (t : TimingObj) (bucket : string) : M unit :=
  d <- Duration t ;;
  Timing (t_c t) bucket (VInt (Z.quot d 1000000)) [].

Definition Unique (c : Client) (bucket : string) (v : string)
  (tags : list string) : M unit :=
  s <- skip c ;;
  if s then ret tt
  else tagstr <- tagstr_of c tags ;;
       conn_unique (c_conn c) (c_prefix c) bucket v tagstr.

Definition Flush (c : Client) : M unit :=
  if c_muted c then ret tt
  else Lock (c_conn c) ;;;
       modify_conn (c_conn c) (flush 0) ;;;
       Unlock (c_conn c).

Definition Close (c : Client) : M unit :=
  if c_muted c then ret tt
  else Lock (c_conn c) ;;;
       modify_conn (c_conn c) (flush 0) ;;;
       modify_conn (c_conn c) close_transport ;;;
       modify_conn (c_conn c) (set_closed true) ;;;
       Unlock (c_conn c).

(** The body that [Count], [Gauge], [Timing], [Histogram] and [Unique]
    share: the skip check, the tags, the line handed to the connection. *)
Definition emit (c : Client) (tags : list string) (bucket : string)
  (n : value) (typ : string) (rate : float) : M unit :=
  s <- skip c ;;
  if s then ret tt
  else tagstr <- tagstr_of c tags ;;
       conn_metric (c_conn c) (c_prefix c) bucket n typ rate tagstr.

(** The metric-reporting calls on a client, with the tags they are given. *)
Inductive metric_call (c : Client) : list string -> M unit -> Prop :=
| call_Count b n tags : metric_call c tags (Count c b n tags)
| call_Increment b : metric_call c [] (Increment c b)
| call_Gauge b v tags : metric_call c tags (Gauge c b v tags)
| call_Timing b v tags : metric_call c tags (Timing c b v tags)
| call_Histogram b v tags : metric_call c tags (Histogram c b v tags)
| call_Send t0 b : metric_call c [] (Send (mk_Timing t0 c) b)
| call_Unique b v tags : metric_call c tags (Unique c b v tags).

End Facade.

(** ** Specification-side definitions *)

(** The flat sequence [k1, v1, k2, v2, ...] as pairs. *)
Fixpoint pairs_of (flat : list string) : list (string * string) :=
  match flat with
  | k :: v :: rest => (k, v) :: pairs_of rest
  | _ => []
  end.

(** The value of the last occurrence of [key] among the pairs. *)
Fixpoint last_value (key : string) (ps : list (string * string))
  : option string :=
  match ps with
  | [] => None
  | (k, v) :: rest =>
      match last_value key rest with
      | Some v' => Some v'
      | None => if String.eqb key k then Some v else None
      end
  end.

(** The elements of a list in the order of their first occurrence. *)
Fixpoint first_occurrences (l : list string) : list string :=
  match l with
  | [] => []
  | x :: l' =>
      x :: List.filter (fun y => negb (String.eqb x y)) (first_occurrences l')
  end.

Definition has_key (key : string) (tags : list tag) : bool :=
  existsb (fun t => String.eqb key (K t)) tags.

Definition value_or (d : string) (o : option string) : string :=
  match o with
  | Some v => v
  | None => d
  end.

(** The merge as the specification words it: the base tags in their
    positions, each with the last value the flat sequence gives to its key
    (its own value when there is none), then the keys that the base does not
    have, in the order in which they first come, each with its last value. *)
Definition merged (tags : list tag) (flat : list string) : list tag :=
  let ps := pairs_of flat in
  map (fun t => {| K := K t; V := value_or (V t) (last_value (K t) ps) |}) tags
  ++ map (fun k => {| K := k; V := value_or "" (last_value k ps) |})
       (first_occurrences
          (List.filter (fun k => negb (has_key k tags)) (map fst ps))).

Fixpoint has_byte (c : ascii) (s : string) : bool :=
  match s with
  | EmptyString => false
  | String a s' => Ascii.eqb a c || has_byte c s'
  end.

(** The byte between a key and its value in each format. *)
Definition pair_sep (tf : TagFormat) : ascii :=
  if N.eqb tf InfluxDB then "="%char else ":"%char.

(** A tag whose key and value hold neither a comma nor the separator of
    the format. *)
Definition plain (sep : ascii) (t : tag) : Prop :=
  has_byte "," (K t) = false /\ has_byte sep (K t) = false /\
  has_byte "," (V t) = false /\ has_byte sep (V t) = false.

(** decode(encode(tagSet)) *)
Definition roundtrip (tf : TagFormat) (tags : list tag) : result (list tag) :=
  rbind (joinTags tf tags) (splitTags tf).

(** What a call of [New] hands to its caller at once is, at most, the panic
    of an odd number of tag arguments. *)
Definition surfaces_only_InvalidArgument
  (r : result ((Client * option error) * World)) : Prop :=
  match r with
  | Ok ((_, None), _) => True
  | Ok ((_, Some _), _) => False
  | Fail (Panic msg) => msg = even_args_msg
  | Fail _ => False
  end.

(** The connection behind [p] is closed, and its mutex is free. *)
Definition conn_closed (p : option nat) (wd : World) : Prop :=
  exists l cn, p = Some l /\ conns wd !! l = Some cn /\
               closed cn = true /\ mu cn = false.

(** What holds once [Close] has returned: the client is muted, and [Close]
    did nothing, or its connection is closed. *)
Definition after_close (c : Client) (wd : World) : Prop :=
  c_muted c = true \/ conn_closed (c_conn c) wd.

(** The store with the connection at [l] replaced. *)
Definition upd (l : nat) (cn : conn) (wd : World) : World :=
  set_conns (<[l := cn]> (conns wd)) wd.

(** A world for the examples: nothing allocated, a random source stuck at
    one half, and a network where only UDP gets through. *)
Definition fresh_transport : Transport := mk_Transport true [] 0 [].

Definition world0 : World :=
  mk_World ∅ (fun _ => 0.5%float) 0 0
    (fun network _ =>
       if String.eqb network "udp" then inr fresh_transport
       else inl "connection refused").

Definition formatFloat0 (f : float) : string := "0.5".

(** The buffer of the scenario: [maxSize = 20]. *)
Definition buffer20 : conn := new_buffer 0%N 20 None fresh_transport.

(** The text of one tag, and of the tags that follow the first one, in
    the encodings: [k<sep>v] and [,k<sep>v,k<sep>v...]. *)
Definition pair_str (sep : ascii) (t : tag) : string :=
  K t +:+ String sep (V t).

Fixpoint tail_str (sep : ascii) (tags : list tag) : string :=
  match tags with
  | [] => ""
  | t :: rest => String "," (pair_str sep t +:+ tail_str sep rest)
  end.

(** The write that a line longer than the bound gets, on its own. *)
Definition standalone (line : string) (max : Z) : list string :=
  if (len line >? max) && negb (len line =? 0) then [line] else [].

(** The prior contents, when there are any, as one write. *)
Definition prior (c : conn) : list string :=
  if len (pendingBytes c) =? 0 then [] else [pendingBytes c].

(** The first two lines of the scenario, as they sit in the buffer. *)
Definition foo_bar : string := "foo:1|c" +:+ String "010" "bar:1|c".

(** A client of a connection at location 0, its world, and the world once
    the client is closed. *)
Definition client1 : Client := mk_Client (Some 0%nat) false 1%float "app." 0%N [].

Definition world1 : World :=
  upd 0 (new_buffer Datadog 20 None fresh_transport) world0.

Definition world1_closed : World :=
  match Close client1 world1 with
  | Ok (_, wd) => wd
  | Fail _ => world1
  end.

(** The client that [New] returns when the connection cannot be opened. *)
Definition client_down : Client := mk_Client None true 0%float "" 0%N [].

(** The value that a tag list gives to a key: that of the first tag that
    has the key. *)
Fixpoint lookup_tag (key : string) (tags : list tag) : option string :=
  match tags with
  | [] => None
  | t :: rest =>
      if String.eqb key (K t) then Some (V t) else lookup_tag key rest
  end.

(** The options of options.go, by the half of the configuration that they
    write: the connection's, or the client's. *)
Inductive conn_option : Option -> Prop :=
| opt_Address addr : conn_option (Address addr)
| opt_ErrorHandler h : conn_option (ErrorHandler h)
| opt_FlushPeriod p : conn_option (FlushPeriod p)
| opt_MaxPacketSize n : conn_option (MaxPacketSize n)
| opt_Network network : conn_option (Network network)
| opt_TagsFormat tf : conn_option (TagsFormat tf).

Inductive client_option : Option -> Prop :=
| opt_Mute b : client_option (Mute b)
| opt_SampleRate rate : client_option (SampleRate rate)
| opt_Prefix p : client_option (Prefix p)
| opt_Tags tags o : Tags tags = Ok o -> client_option o.

Definition package_option (o : Option) : Prop :=
  conn_option o \/ client_option o.

(** What a call leaves alone: the random source and its position, the
    clock, the network. *)
Definition same_env (wd wd' : World) : Prop :=
  rand wd' = rand wd /\ rand_next wd' = rand_next wd /\
  clock wd' = clock wd /\ dial wd' = dial wd.

(** A computation that, when it returns, has left all of that alone. *)
Definition env_preserving {A : Type} (m : M A) : Prop :=
  forall wd a wd', m wd = Ok (a, wd') -> same_env wd wd'.

(** The world after one number was drawn from the random source. *)
Definition drawn (wd : World) : World :=
  mk_World (conns wd) (rand wd) (S (rand_next wd)) (clock wd) (dial wd).

(** The world when the clock shows [t]. *)
Definition at_time (t : Z) (wd : World) : World :=
  mk_World (conns wd) (rand wd) (rand_next wd) t (dial wd).

(** A client that calls can be made on: it is muted, or it has a
    connection whose mutex is free and whose tag format is unset or one of
    the two of the table. *)
Definition ready (c : Client) (wd : World) : Prop :=
  c_muted c = true \/
  exists l cn, c_conn c = Some l /\ conns wd !! l = Some cn /\
               mu cn = false /\ (tagFormat cn <= 2)%N.

(** A world whose connection has a tag format outside the table, and one
    whose transport refuses the next write, with a handler for the error. *)
Definition world_format7 : World :=
  upd 0 (new_buffer 7%N 20 None fresh_transport) world0.

Definition world_faulty : World :=
  upd 0 (mk_conn Datadog false false
           (mk_Transport true [] 0 [Some "write: connection refused"])
           "foo:1|c" 20 (Some "log") []) world0.

(** * Properties *)

Example mergeTags_ex :
  mergeTags [mk_tag "a" "1"] ["a"; "2"; "b"; "3"]
  = Ok [mk_tag "a" "2"; mk_tag "b" "3"].
Proof. reflexivity. Qed.

Example joinTags_ex :
  joinTags InfluxDB [mk_tag "a" "1"; mk_tag "b" "2"] = Ok ",a=1,b=2"
  /\ joinTags Datadog [mk_tag "a" "1"; mk_tag "b" "2"] = Ok "|#a:1,b:2".
Proof. split; reflexivity. Qed.

Example splitTags_ex :
  splitTags InfluxDB ",a=1,b=2" = Ok [mk_tag "a" "1"; mk_tag "b" "2"]
  /\ splitTags Datadog "|#a:1,b:2" = Ok [mk_tag "a" "1"; mk_tag "b" "2"]
  /\ splitTags Datadog "|" = Fail (RuntimeError "slice bounds out of range")
  /\ splitTags InfluxDB ",a" = Fail (RuntimeError "index out of range").
Proof. repeat split; reflexivity. Qed.

Example merged_ex :
  merged [mk_tag "a" "1"; mk_tag "c" "9"] ["b"; "1"; "a"; "2"; "b"; "3"]
  = [mk_tag "a" "2"; mk_tag "c" "9"; mk_tag "b" "3"].
Proof. reflexivity. Qed.

(** ** Tag decoding and encoding with nothing to do *)

(** C8: [joinTags] returns the empty string when the set is empty or the
    format is unset, and [splitTags] returns the empty set, and no panic,
    when the input is empty or the format is unset. *)
Theorem joinTags_splitTags_unset (tf : TagFormat) (tags : list tag)
  (s : string) :
  (tags = [] \/ tf = 0%N -> joinTags tf tags = Ok "") /\
  (s = "" \/ tf = 0%N -> splitTags tf s = Ok []).
Proof.
  split; intros [-> | ->].
  - reflexivity.
  - unfold joinTags. now rewrite orb_true_r.
  - reflexivity.
  - unfold splitTags. now rewrite orb_true_r.
Qed.

Lemma joinTags_splitTags_unset_witness :
  joinTags 0%N [mk_tag "a" "1"] = Ok "" /\ splitTags Datadog "" = Ok [].
Proof.
  split.
  - apply (proj1 (joinTags_splitTags_unset 0%N [mk_tag "a" "1"] "")).
    right; reflexivity.
  - apply (proj2 (joinTags_splitTags_unset Datadog [] "")).
    left; reflexivity.
Defined.

(** ** Merging tags *)

Lemma odd_length_mod (A : Type) (l : list A) :
  Nat.odd (length l) = true -> Nat.eqb (length l mod 2) 0 = false.
Proof.
  intros H. apply Nat.eqb_neq. intros E.
  apply Nat.Div0.mod_divides in E. destruct E as [k E].
  rewrite E, Nat.odd_mul in H. discriminate.
Qed.

Lemma even_length_mod (A : Type) (l : list A) :
  Nat.even (length l) = true -> Nat.eqb (length l mod 2) 0 = true.
Proof.
  intros H. apply Nat.eqb_eq. apply Nat.even_spec in H. destruct H as [k E].
  rewrite E, Nat.mul_comm. apply Nat.Div0.mod_mul.
Qed.

Lemma mergeTags_failure (tags : list tag) (flat : list string) (f : fault) :
  mergeTags tags flat = Fail f ->
  f = Panic even_args_msg /\ Nat.odd (length flat) = true.
Proof.
  unfold mergeTags. intros H.
  destruct (Nat.eqb (length flat mod 2) 0) eqn:E; simpl in H.
  - destruct (Nat.eqb (length flat) 0); discriminate.
  - split; [congruence|].
    rewrite <- Nat.negb_even. destruct (Nat.even (length flat)) eqn:Ev; auto.
    apply even_length_mod in Ev. congruence.
Qed.

(** On a flat sequence of odd length [mergeTags], and [Tags] before it
    builds its option, panic at the call with the message of the invalid
    argument. *)
Lemma mergeTags_odd (tags : list tag) (newTags : list string) :
  Nat.odd (length newTags) = true ->
  mergeTags tags newTags = Fail (Panic even_args_msg) /\
  Tags newTags = Fail (Panic even_args_msg).
Proof.
  intros H. apply odd_length_mod in H.
  unfold mergeTags, Tags. rewrite H. simpl. split; reflexivity.
Qed.

(** [New] hands the error of a connection that could not be opened to its
    caller, at once. *)
Lemma New_surfaces_ConnectionError :
  ~ surfaces_only_InvalidArgument (New [Network "tcp"] world0).
Proof. vm_compute. exact (fun H => H). Qed.

Lemma pair_ind (A : Type) (P : list A -> Prop) :
  P [] -> (forall x, P [x]) -> (forall x y l, P l -> P (x :: y :: l)) ->
  forall l, P l.
Proof.
  intros H0 H1 H2.
  assert (H : forall l, P l /\ forall x, P (x :: l)).
  { induction l as [|a l [IH1 IH2]]; split; auto. }
  intros l. apply H.
Qed.

Lemma overwrite_spec (key val : string) (output : list tag) :
  overwrite key val output
  = (has_key key output,
     map (fun t => if String.eqb key (K t) then {| K := K t; V := val |}
                   else t) output).
Proof.
  induction output as [|t rest IH]; simpl; [reflexivity|].
  rewrite IH. destruct (String.eqb key (K t)); reflexivity.
Qed.

Lemma overwrite_absent (key val : string) (output : list tag) :
  has_key key output = false ->
  map (fun t => if String.eqb key (K t) then {| K := K t; V := val |} else t)
      output = output.
Proof.
  induction output as [|t rest IH]; simpl; [reflexivity|].
  intros H. apply orb_false_iff in H. destruct H as [H1 H2].
  rewrite H1, IH; auto.
Qed.

Lemma last_value_cons_ne (key k v : string) (ps : list (string * string)) :
  String.eqb key k = false ->
  last_value key ((k, v) :: ps) = last_value key ps.
Proof. intros H. simpl. rewrite H. destruct (last_value key ps); reflexivity. Qed.

Lemma last_value_cons_eq (k v d : string) (ps : list (string * string)) :
  value_or d (last_value k ((k, v) :: ps)) = value_or v (last_value k ps).
Proof. simpl. rewrite String.eqb_refl. destruct (last_value k ps); reflexivity. Qed.

Lemma has_key_absent (key : string) (tags : list tag) (t : tag) :
  has_key key tags = false -> In t tags -> String.eqb (K t) key = false.
Proof.
  intros H Hin. unfold has_key in H.
  destruct (String.eqb (K t) key) eqn:E; [|reflexivity].
  apply String.eqb_eq in E.
  assert (X : existsb (fun t0 => String.eqb key (K t0)) tags = true).
  { apply existsb_exists. exists t. split; [exact Hin|].
    rewrite E. apply String.eqb_refl. }
  congruence.
Qed.

Lemma filter_filter (A : Type) (p q : A -> bool) (l : list A) :
  List.filter p (List.filter q l) = List.filter (fun x => q x && p x) l.
Proof.
  induction l as [|x l IH]; simpl; [reflexivity|].
  destruct (q x); simpl; [destruct (p x)|]; rewrite ?IH; reflexivity.
Qed.

Lemma filter_first_occurrences (p : string -> bool) (l : list string) :
  List.filter p (first_occurrences l) = first_occurrences (List.filter p l).
Proof.
  induction l as [|x l IH]; simpl; [reflexivity|].
  destruct (p x) eqn:Px; simpl.
  - f_equal. rewrite <- IH, !filter_filter.
    apply filter_ext. intros y. apply andb_comm.
  - rewrite <- IH, filter_filter. apply filter_ext. intros y.
    destruct (String.eqb x y) eqn:E; simpl; [|reflexivity].
    apply String.eqb_eq in E. subst y. now rewrite Px.
Qed.

Lemma merged_step_present (k v : string) (rest : list string)
  (out : list tag) :
  has_key k out = true ->
  merged (map (fun t => if String.eqb k (K t) then {| K := K t; V := v |}
                        else t) out) rest
  = merged out (k :: v :: rest).
Proof.
  intros Hk. unfold merged. cbn [pairs_of map fst].
  set (ps := pairs_of rest). f_equal.
  - rewrite map_map. apply map_ext. intros t.
    destruct (String.eqb k (K t)) eqn:E; cbn [K V].
    + apply String.eqb_eq in E. subst k. now rewrite last_value_cons_eq.
    + rewrite last_value_cons_ne; [reflexivity|].
      now rewrite String.eqb_sym.
  - assert (Hkeys : forall k', has_key k'
        (map (fun t => if String.eqb k (K t) then {| K := K t; V := v |}
                       else t) out) = has_key k' out).
    { intros k'. unfold has_key. clear.
      induction out as [|t out IH]; [reflexivity|]. cbn [map existsb].
      rewrite IH. f_equal. destruct (String.eqb k (K t)); reflexivity. }
    cbn [List.filter]. rewrite Hk. cbn [negb].
    rewrite (filter_ext _ (fun k' => negb (has_key k' out)))
      by (intros k'; now rewrite Hkeys).
    apply map_ext_in. intros k' Hin. f_equal. f_equal.
    symmetry. apply last_value_cons_ne.
    destruct (String.eqb k' k) eqn:E; [|reflexivity].
    apply String.eqb_eq in E. subst k'.
    assert (Hin' : In k (List.filter (fun k' => negb (has_key k' out))
                           (map fst ps))).
    { clear - Hin. revert Hin. generalize (List.filter
        (fun k' => negb (has_key k' out)) (map fst ps)). intros l.
      induction l as [|x l IH]; simpl; [tauto|].
      intros [->|H]; [now left|]. right. apply IH.
      apply filter_In in H. tauto. }
    apply filter_In in Hin'. rewrite Hk in Hin'. destruct Hin'. discriminate.
Qed.

Lemma merged_step_absent (k v : string) (rest : list string)
  (out : list tag) :
  has_key k out = false ->
  merged (out ++ [{| K := k; V := v |}]) rest = merged out (k :: v :: rest).
Proof.
  intros Hk. unfold merged. cbn [pairs_of map fst].
  set (ps := pairs_of rest).
  rewrite map_app, <- app_assoc. f_equal.
  - apply map_ext_in. intros t Hin. f_equal. f_equal.
    symmetry. apply last_value_cons_ne. eapply has_key_absent; eauto.
  - cbn [List.filter]. rewrite Hk. cbn [negb first_occurrences map app K V].
    f_equal.
    + f_equal. symmetry. apply last_value_cons_eq.
    + rewrite filter_first_occurrences, filter_filter.
      rewrite (filter_ext (fun k' => negb (has_key k'
                 (out ++ [{| K := k; V := v |}])))
                 (fun x => negb (has_key x out) && negb (String.eqb k x))).
      2:{ intros k'. unfold has_key. rewrite existsb_app. cbn [existsb K].
          rewrite orb_false_r, negb_orb, (String.eqb_sym k' k).
          reflexivity. }
      apply map_ext_in. intros k' Hin. f_equal. f_equal.
      symmetry. apply last_value_cons_ne.
      assert (Hin' : In k' (List.filter
                (fun x => negb (has_key x out) && negb (String.eqb k x))
                (map fst ps))).
      { clear - Hin. revert Hin. generalize (List.filter
          (fun x => negb (has_key x out) && negb (String.eqb k x))
          (map fst ps)). intros l.
        induction l as [|x l IH]; simpl; [tauto|].
        intros [->|H]; [now left|]. right. apply IH.
        apply filter_In in H. tauto. }
      apply filter_In in Hin'. destruct Hin' as [_ H].
      apply andb_true_iff in H. destruct H as [_ H].
      rewrite String.eqb_sym. now apply negb_true_iff in H.
Qed.

Lemma merge_loop_merged (flat : list string) :
  Nat.even (length flat) = true ->
  forall out, merge_loop out flat = merged out flat.
Proof.
  induction flat as [|x|k v rest IH] using pair_ind; intros Hev out.
  - unfold merged. simpl. rewrite app_nil_r.
    induction out as [|t out IHo]; simpl; [reflexivity|].
    rewrite <- IHo. now destruct t.
  - discriminate.
  - cbn [merge_loop]. rewrite overwrite_spec.
    destruct (has_key k out) eqn:Hk.
    + rewrite IH by exact Hev. now apply merged_step_present.
    + rewrite overwrite_absent by exact Hk.
      rewrite IH by exact Hev. now apply merged_step_absent.
Qed.

Lemma merged_nil (tags : list tag) : merged tags [] = tags.
Proof.
  unfold merged. simpl. rewrite app_nil_r.
  induction tags as [|t tags IH]; simpl; [reflexivity|].
  rewrite IH. now destruct t.
Qed.

(** C5: on a flat sequence of even length [mergeTags] returns the base tags
    in their positions, each key with the value of its last occurrence in
    the flat sequence, followed by the keys that are new, in order; merging
    a:1 with [a, 2, b, 3] gives a:2, b:3. *)
Theorem mergeTags_merged (tags : list tag) (newTags : list string) :
  Nat.even (length newTags) = true ->
  mergeTags tags newTags = Ok (merged tags newTags) /\
  map K (firstn (length tags) (merged tags newTags)) = map K tags /\
  mergeTags [mk_tag "a" "1"] ["a"; "2"; "b"; "3"]
  = Ok [mk_tag "a" "2"; mk_tag "b" "3"].
Proof.
  intros Hev. split; [|split; [|reflexivity]].
  - unfold mergeTags. rewrite (even_length_mod _ _ Hev). cbn [negb].
    destruct newTags as [|x l].
    + cbn. now rewrite merged_nil.
    + cbn [length Nat.eqb]. rewrite merge_loop_merged by exact Hev.
      f_equal. f_equal.
      induction tags as [|t tags IH]; simpl; [reflexivity|].
      rewrite IH. now destruct t.
  - unfold merged.
    rewrite firstn_app, length_map, Nat.sub_diag. cbn [firstn].
    rewrite app_nil_r, firstn_all2 by (rewrite length_map; lia).
    rewrite map_map. reflexivity.
Qed.

Lemma mergeTags_merged_witness :
  mergeTags [mk_tag "a" "1"; mk_tag "c" "9"] ["b"; "1"; "a"; "2"; "b"; "3"]
  = Ok [mk_tag "a" "2"; mk_tag "c" "9"; mk_tag "b" "3"].
Proof.
  exact (proj1 (mergeTags_merged [mk_tag "a" "1"; mk_tag "c" "9"]
                  ["b"; "1"; "a"; "2"; "b"; "3"] eq_refl)).
Defined.

(** ** Encoding and decoding tags *)

Lemma append_assoc (a b c : string) : (a +:+ b) +:+ c = a +:+ (b +:+ c).
Proof. induction a as [|x a IH]; simpl; [reflexivity|]. now rewrite IH. Qed.

Lemma append_nil_r (a : string) : a +:+ "" = a.
Proof. induction a as [|x a IH]; simpl; [reflexivity|]. now rewrite IH. Qed.

Lemma has_byte_append (c : ascii) (a b : string) :
  has_byte c (a +:+ b) = has_byte c a || has_byte c b.
Proof.
  induction a as [|x a IH]; simpl; [reflexivity|].
  now rewrite IH, orb_assoc.
Qed.

Lemma split_fields_clean (sep : ascii) (a : string) :
  has_byte sep a = false -> split_fields sep a = (a, []).
Proof.
  induction a as [|x a IH]; simpl; [reflexivity|].
  intros H. apply orb_false_iff in H. destruct H as [H1 H2].
  now rewrite IH, H1.
Qed.

Lemma Split_append (sep : ascii) (a b : string) :
  has_byte sep a = false ->
  Split (a +:+ String sep b) sep = a :: Split b sep.
Proof.
  unfold Split. induction a as [|x a IH]; simpl; intros H.
  - rewrite Ascii.eqb_refl. now destruct (split_fields sep b).
  - apply orb_false_iff in H. destruct H as [H1 H2].
    specialize (IH H2). rewrite H1.
    destruct (split_fields sep (a +:+ String sep b)) as [h t].
    destruct (split_fields sep b) as [h' t'].
    now inversion IH.
Qed.

Lemma Split_clean (sep : ascii) (a : string) :
  has_byte sep a = false -> Split a sep = [a].
Proof. intros H. unfold Split. now rewrite split_fields_clean. Qed.

Lemma joinInfluxDB_tail (tags : list tag) :
  joinInfluxDB tags = tail_str "=" tags.
Proof.
  unfold joinInfluxDB.
  assert (H : forall acc, fold_left
      (fun buf t => buf +:+ "," +:+ K t +:+ "=" +:+ V t) tags acc
      = acc +:+ tail_str "=" tags).
  { induction tags as [|t tags IH]; intros acc; simpl.
    - now rewrite append_nil_r.
    - rewrite IH. unfold pair_str.
      repeat (progress (rewrite ?append_assoc; simpl)). reflexivity. }
  apply H.
Qed.

Lemma joinDatadog_tail (t : tag) (tags : list tag) :
  joinDatadog (t :: tags) = "|#" +:+ pair_str ":" t +:+ tail_str ":" tags.
Proof.
  unfold joinDatadog. cbn [fold_left].
  assert (H : forall acc, fold_left
      (fun (st : string * bool) t0 =>
         let (buf, first) := st in
         let buf0 := if first then buf else buf +:+ "," in
         (buf0 +:+ K t0 +:+ ":" +:+ V t0, false)) tags (acc, false)
      = (acc +:+ tail_str ":" tags, false)).
  { induction tags as [|t' tags IH]; intros acc; simpl.
    - now rewrite append_nil_r.
    - rewrite IH. unfold pair_str.
      repeat (progress (rewrite ?append_assoc; simpl)). reflexivity. }
  rewrite H. reflexivity.
Qed.

Lemma pair_str_no_comma (sep : ascii) (t : tag) :
  Ascii.eqb sep "," = false -> plain sep t ->
  has_byte "," (pair_str sep t) = false.
Proof.
  intros Hs (H1 & _ & H3 & _). unfold pair_str.
  rewrite has_byte_append. simpl. now rewrite H1, Hs, H3.
Qed.

Lemma Split_pairs (sep : ascii) (tags : list tag) (t : tag) :
  Ascii.eqb sep "," = false -> Forall (plain sep) (t :: tags) ->
  Split (pair_str sep t +:+ tail_str sep tags) ","
  = map (pair_str sep) (t :: tags).
Proof.
  intros Hs. revert t. induction tags as [|t' tags IH]; intros t H.
  - simpl. rewrite append_nil_r. apply Split_clean.
    apply pair_str_no_comma; [exact Hs|]. now inversion H.
  - cbn [tail_str]. inversion H as [|? ? Ht H']; subst.
    rewrite Split_append by (now apply pair_str_no_comma).
    rewrite IH by exact H'. reflexivity.
Qed.

Lemma split_pair_str (sep : ascii) (t : tag) :
  plain sep t -> split_pair sep (pair_str sep t) = Ok t.
Proof.
  intros (_ & H2 & _ & H4). unfold split_pair, pair_str.
  rewrite Split_append by exact H2. rewrite Split_clean by exact H4.
  simpl. now destruct t.
Qed.

Lemma rmapM_split_pair (sep : ascii) (tags : list tag) :
  Forall (plain sep) tags ->
  rmapM (split_pair sep) (map (pair_str sep) tags) = Ok tags.
Proof.
  induction 1 as [|t tags Ht H IH]; simpl; [reflexivity|].
  rewrite split_pair_str by exact Ht. simpl. rewrite IH. reflexivity.
Qed.

(** C7, as amended: for both formats, decoding the encoding of a non-empty
    tag set gives the set back when no key and no value holds a comma or the
    separator of the format. *)
Theorem roundtrip_plain (tf : TagFormat) (tags : list tag) :
  tf = InfluxDB \/ tf = Datadog ->
  tags <> [] ->
  Forall (plain (pair_sep tf)) tags ->
  roundtrip tf tags = Ok tags.
Proof.
  intros Htf Hne Hp. destruct tags as [|t tags]; [congruence|].
  unfold roundtrip. destruct Htf as [-> | ->]; cbn [pair_sep N.eqb InfluxDB
    Datadog Pos.eqb] in Hp.
  - unfold joinTags. cbn [length Nat.eqb orb N.eqb InfluxDB joinFuncs Pos.eqb].
    rewrite joinInfluxDB_tail. cbn [tail_str rbind].
    unfold splitTags. cbn [String.length Nat.eqb orb N.eqb InfluxDB splitFuncs
      Pos.eqb]. unfold splitInfluxDB. cbn [slice_from rbind].
    rewrite Split_pairs by (reflexivity || exact Hp).
    now apply rmapM_split_pair.
  - unfold joinTags. cbn [length Nat.eqb orb N.eqb InfluxDB Datadog joinFuncs
      Pos.eqb]. rewrite joinDatadog_tail. cbn [rbind].
    unfold splitTags. cbn [String.append String.length Nat.eqb orb N.eqb
      InfluxDB Datadog splitFuncs Pos.eqb]. unfold splitDatadog.
    cbn [slice_from rbind].
    rewrite Split_pairs by (reflexivity || exact Hp).
    now apply rmapM_split_pair.
Qed.

Lemma roundtrip_plain_witness :
  roundtrip Datadog [mk_tag "region" "us-west"; mk_tag "tag1" "payroll"]
  = Ok [mk_tag "region" "us-west"; mk_tag "tag1" "payroll"].
Proof.
  apply roundtrip_plain.
  - right; reflexivity.
  - discriminate.
  - repeat constructor.
Defined.

(** C7, as it is stated, fails: a value that holds the separator does not
    come back, though the set is not empty and its keys are unique. *)
Lemma roundtrip_separator_in_value :
  [mk_tag "a" "b=c"] <> [] /\ NoDup (map K [mk_tag "a" "b=c"]) /\
  roundtrip InfluxDB [mk_tag "a" "b=c"] = Ok [mk_tag "a" "b"] /\
  roundtrip InfluxDB [mk_tag "a" "b=c"] <> Ok [mk_tag "a" "b=c"].
Proof.
  split; [discriminate|]. split; [|split].
  - constructor; [intros H; inversion H | constructor].
  - reflexivity.
  - vm_compute. discriminate.
Qed.

(** ** The Packet Buffer *)

Lemma len_zero (s : string) : (len s =? 0) = true <-> s = "".
Proof.
  unfold len. destruct s; simpl; split; intros H;
    try reflexivity; try discriminate.
Qed.

Lemma len_nonzero (s : string) : s <> "" -> (len s =? 0) = false.
Proof.
  intros H. destruct (len s =? 0) eqn:E; [|reflexivity].
  apply len_zero in E. contradiction.
Qed.

Lemma handleError_fields (err : option error) (c : conn) :
  closed (handleError err c) = closed c /\
  maxSize (handleError err c) = maxSize c /\
  pendingBytes (handleError err c) = pendingBytes c /\
  w (handleError err c) = w c /\
  mu (handleError err c) = mu c.
Proof.
  unfold handleError. destruct err, (errorHandler c); simpl; auto.
Qed.

Lemma flush_fields (d : Z) (c : conn) :
  closed (flush d c) = closed c /\ maxSize (flush d c) = maxSize c /\
  mu (flush d c) = mu c.
Proof.
  unfold flush. destruct (closed c) eqn:Hc; [auto|].
  destruct (len (pendingBytes c) =? 0); [auto|].
  destruct (Write (w c) (pendingBytes c)) as [err t].
  destruct (handleError_fields err (set_pendingBytes "" (set_w t c)))
    as (H1 & H2 & _ & _ & H5).
  rewrite H1, H2, H5. simpl. auto.
Qed.

Lemma flush_open (d : Z) (c : conn) :
  closed c = false ->
  pendingBytes (flush d c) = "" /\
  t_writes (w (flush d c)) = (t_writes (w c) ++ prior c)%list.
Proof.
  intros Hc. unfold flush, prior. rewrite Hc.
  destruct (len (pendingBytes c) =? 0) eqn:E.
  - apply len_zero in E. now rewrite E, app_nil_r.
  - destruct (Write (w c) (pendingBytes c)) as [err t] eqn:Hw.
    destruct (handleError_fields err (set_pendingBytes "" (set_w t c)))
      as (_ & _ & H3 & H4 & _).
    rewrite H3, H4. simpl. split; [reflexivity|].
    unfold Write in Hw. destruct (next_fault (w c)).
    inversion Hw; subst. reflexivity.
Qed.

Lemma flush_closed (d : Z) (c : conn) : closed c = true -> flush d c = c.
Proof. intros H. unfold flush. now rewrite H. Qed.

Lemma append_closed (line : string) (c : conn) :
  closed c = true -> append line c = c.
Proof. intros H. unfold append. now rewrite H. Qed.

Lemma push_line_fields (line : string) (c : conn) :
  closed (push_line line c) = closed c /\
  maxSize (push_line line c) = maxSize c /\
  w (push_line line c) = w c /\ mu (push_line line c) = mu c.
Proof. unfold push_line. destruct (len (pendingBytes c) =? 0); simpl; auto. Qed.

(** A closed buffer holds nothing. *)
Lemma reachable_closed_empty (c : conn) :
  reachable c -> closed c = true -> pendingBytes c = "".
Proof.
  induction 1 as [tf max h t|line c Hr IH|d c Hr IH|c Hr IH]; intros Hc.
  - discriminate.
  - destruct (closed c) eqn:E.
    + rewrite append_closed by exact E. auto.
    + exfalso. revert Hc. unfold append. rewrite E.
      repeat match goal with
      | |- context [if ?b then _ else _] => destruct b
      end;
      rewrite ?(proj1 (flush_fields _ _)), ?(proj1 (push_line_fields _ _)),
        ?(proj1 (flush_fields _ _)); congruence.
  - destruct (closed c) eqn:E.
    + rewrite flush_closed by exact E. auto.
    + rewrite (proj1 (flush_fields d c)) in Hc. congruence.
  - unfold close_conn, close_transport.
    destruct (Close_w (w (flush 0 c))) as [err t]. simpl.
    destruct (handleError_fields err (set_w t (flush 0 c)))
      as (_ & _ & H3 & _).
    rewrite H3. simpl.
    destruct (closed c) eqn:E.
    + rewrite flush_closed by exact E. auto.
    + apply flush_open. exact E.
Qed.

Lemma append_open (line : string) (c : conn) :
  closed c = false ->
  let overflow := (len (pendingBytes c) + len line + 1 >? maxSize c)
                  && negb (len (pendingBytes c) =? 0) in
  t_writes (w (append line c))
  = (t_writes (w c) ++ (if overflow then prior c else [])
     ++ (if len line >? maxSize c
         then prior (push_line line (if overflow then flush 0 c else c))
         else []))%list /\
  pendingBytes (append line c)
  = if len line >? maxSize c then ""
    else pendingBytes (push_line line (if overflow then flush 0 c else c)).
Proof.
  intros Hc overflow. unfold append. rewrite Hc. fold overflow.
  set (c1 := if overflow then flush 0 c else c).
  assert (Hc1 : closed c1 = false).
  { unfold c1. destruct overflow; [|exact Hc].
    now rewrite (proj1 (flush_fields 0 c)). }
  assert (Hw1 : t_writes (w c1)
                = (t_writes (w c) ++ (if overflow then prior c else []))%list).
  { unfold c1. destruct overflow.
    - apply flush_open. exact Hc.
    - now rewrite app_nil_r. }
  assert (Hc2 : closed (push_line line c1) = false).
  { now rewrite (proj1 (push_line_fields line c1)). }
  destruct (len line >? maxSize c).
  - destruct (flush_open 0 _ Hc2) as [Hp Hw]. rewrite Hp, Hw.
    destruct (push_line_fields line c1) as (_ & _ & H3 & _).
    rewrite H3, Hw1, app_assoc. auto.
  - destruct (push_line_fields line c1) as (_ & _ & H3 & _).
    rewrite H3, Hw1, app_nil_r. auto.
Qed.

(** C1: when the pending bytes are not empty and do not fit with the line
    and one separator, the append writes the prior contents exactly once,
    before the line goes in: the line is left pending, or, when it is itself
    longer than the bound, written next on its own.  With a bound of 20,
    the third of foo:1|c, bar:1|c, baz:1|c flushes the first two and stays
    pending. *)
Theorem append_overflow_flushes_prior :
  (forall (c : conn) (line : string),
     reachable c ->
     pendingBytes c <> "" ->
     len (pendingBytes c) + len line + 1 > maxSize c ->
     t_writes (w (append line c))
     = (t_writes (w c) ++ pendingBytes c :: standalone line (maxSize c))%list
     /\ pendingBytes (append line c)
        = (if len line >? maxSize c then "" else line)) /\
  (let c2 := append "bar:1|c" (append "foo:1|c" buffer20) in
   pendingBytes c2 = foo_bar /\ len foo_bar = 15 /\
   t_writes (w c2) = [] /\
   t_writes (w (append "baz:1|c" c2)) = [foo_bar] /\
   pendingBytes (append "baz:1|c" c2) = "baz:1|c").
Proof.
  split; [|repeat split; reflexivity].
  intros c line Hr Hne Hov.
  assert (Hc : closed c = false).
  { destruct (closed c) eqn:E; [|reflexivity].
    exfalso. apply Hne. now apply reachable_closed_empty. }
  destruct (append_open line c Hc) as [Hw Hp]. cbv zeta in Hw, Hp.
  assert (Hgt : (len (pendingBytes c) + len line + 1 >? maxSize c) = true)
    by (apply Z.gtb_lt; lia).
  rewrite Hgt, (len_nonzero _ Hne) in Hw, Hp. cbn [andb negb] in Hw, Hp.
  destruct (flush_open 0 c Hc) as [Hfp _].
  assert (Hpush : pendingBytes (push_line line (flush 0 c)) = line).
  { unfold push_line. rewrite Hfp. reflexivity. }
  rewrite Hpush in Hp. split; [|exact Hp].
  rewrite Hw. f_equal. unfold prior at 1. rewrite (len_nonzero _ Hne).
  cbn [app]. f_equal. unfold standalone, prior. rewrite Hpush.
  destruct (len line >? maxSize c); [|reflexivity].
  cbn [andb]. destruct (len line =? 0); reflexivity.
Qed.

Lemma append_overflow_flushes_prior_witness :
  let c2 := append "bar:1|c" (append "foo:1|c" buffer20) in
  t_writes (w (append "baz:1|c" c2)) = [foo_bar] /\
  pendingBytes (append "baz:1|c" c2) = "baz:1|c".
Proof.
  intros c2.
  apply (proj1 append_overflow_flushes_prior c2 "baz:1|c").
  - unfold c2. do 2 apply reach_append. apply reach_new.
  - vm_compute. discriminate.
  - vm_compute. reflexivity.
Defined.

(** C2: a line longer than the bound, appended to an open buffer (whose
    bound is not negative), is written at once by a flush of its own, whole,
    after the prior contents if there were any; nothing of it stays
    behind. *)
Theorem append_oversized_standalone (c : conn) (line : string) :
  closed c = false ->
  0 <= maxSize c ->
  len line > maxSize c ->
  t_writes (w (append line c)) = (t_writes (w c) ++ prior c ++ [line])%list /\
  pendingBytes (append line c) = "".
Proof.
  intros Hc Hmax Hov.
  assert (Hne : line <> "").
  { intros ->. unfold len in Hov. simpl in Hov. lia. }
  destruct (append_open line c Hc) as [Hw Hp]. cbv zeta in Hw, Hp.
  assert (Hgt : (len line >? maxSize c) = true) by (apply Z.gtb_lt; lia).
  rewrite Hgt in Hw, Hp. split; [|exact Hp]. rewrite Hw. f_equal.
  assert (Hlen : 0 <= len (pendingBytes c)) by (unfold len; lia).
  destruct (len (pendingBytes c) =? 0) eqn:E.
  - cbn [negb]. rewrite andb_false_r. unfold prior, push_line.
    rewrite E. simpl. now rewrite (len_nonzero _ Hne).
  - assert (Hgt' : (len (pendingBytes c) + len line + 1 >? maxSize c) = true)
      by (apply Z.gtb_lt; apply Z.eqb_neq in E; lia).
    rewrite Hgt'. cbn [andb negb]. f_equal.
    destruct (flush_open 0 c Hc) as [Hfp _].
    unfold prior, push_line. rewrite Hfp. simpl.
    now rewrite (len_nonzero _ Hne).
Qed.

Lemma append_oversized_standalone_witness :
  t_writes (w (append "a.long.bucket.name:123456|c"
                 (append "foo:1|c" buffer20)))
  = ["foo:1|c"; "a.long.bucket.name:123456|c"] /\
  pendingBytes (append "a.long.bucket.name:123456|c"
                  (append "foo:1|c" buffer20)) = "".
Proof.
  apply (append_oversized_standalone (append "foo:1|c" buffer20)
           "a.long.bucket.name:123456|c").
  - reflexivity.
  - vm_compute. discriminate.
  - vm_compute. reflexivity.
Defined.

(** ** The store of connections *)

Lemma upd_lookup (l : nat) (cn : conn) (wd : World) :
  conns (upd l cn wd) !! l = Some cn.
Proof. unfold upd, set_conns. simpl. apply lookup_insert_eq. Qed.

Lemma upd_upd (l : nat) (c1 c2 : conn) (wd : World) :
  upd l c2 (upd l c1 wd) = upd l c2 wd.
Proof. unfold upd, set_conns. simpl. now rewrite insert_insert_eq. Qed.

Lemma upd_same (l : nat) (cn : conn) (wd : World) :
  conns wd !! l = Some cn -> upd l cn wd = wd.
Proof.
  intros H. unfold upd, set_conns. rewrite insert_id by exact H.
  now destruct wd.
Qed.

Lemma modify_conn_ok (l : nat) (cn : conn) (f : conn -> conn) (wd : World) :
  conns wd !! l = Some cn ->
  modify_conn (Some l) f wd = Ok (tt, upd l (f cn) wd).
Proof. intros H. unfold modify_conn, bind, get_conn. now rewrite H. Qed.

Lemma Lock_ok (l : nat) (cn : conn) (wd : World) :
  conns wd !! l = Some cn -> mu cn = false ->
  Lock (Some l) wd = Ok (tt, upd l (set_mu true cn) wd).
Proof. intros H Hm. unfold Lock, bind, get_conn. now rewrite H, Hm. Qed.

Lemma Unlock_ok (l : nat) (cn : conn) (wd : World) :
  conns wd !! l = Some cn -> mu cn = true ->
  Unlock (Some l) wd = Ok (tt, upd l (set_mu false cn) wd).
Proof. intros H Hm. unfold Unlock, bind, get_conn. now rewrite H, Hm. Qed.

(** A critical section on a free mutex runs to its end and frees it. *)
Lemma locked_section (l : nat) (cn : conn) (f : conn -> conn) (wd : World) :
  conns wd !! l = Some cn -> mu cn = false ->
  mu (f (set_mu true cn)) = true ->
  (Lock (Some l) ;;; modify_conn (Some l) f ;;; Unlock (Some l)) wd
  = Ok (tt, upd l (set_mu false (f (set_mu true cn))) wd).
Proof.
  intros H Hm Hf. unfold bind at 1. rewrite (Lock_ok l cn wd H Hm).
  unfold bind at 1.
  rewrite (modify_conn_ok l (set_mu true cn) f _ (upd_lookup _ _ _)).
  rewrite upd_upd.
  rewrite (Unlock_ok l _ _ (upd_lookup _ _ _) Hf). now rewrite upd_upd.
Qed.

Lemma set_mu_back (cn : conn) :
  mu cn = false -> set_mu false (set_mu true cn) = cn.
Proof. destruct cn. simpl. now intros ->. Qed.

(** On a closed connection a critical section of appends and flushes
    changes nothing. *)
Lemma closed_section (l : nat) (cn : conn) (f : conn -> conn) (wd : World) :
  conns wd !! l = Some cn -> mu cn = false ->
  f (set_mu true cn) = set_mu true cn ->
  (Lock (Some l) ;;; modify_conn (Some l) f ;;; Unlock (Some l)) wd
  = Ok (tt, wd).
Proof.
  intros H Hm Hf.
  rewrite (locked_section l cn f wd H Hm) by (now rewrite Hf).
  rewrite Hf, set_mu_back by exact Hm. now rewrite upd_same.
Qed.

(** ** The client *)

Lemma skip_conns (c : Client) (wd wd' : World) (s : bool) :
  skip c wd = Ok (s, wd') -> conns wd' = conns wd.
Proof.
  unfold skip. destruct (c_muted c); [unfold ret; congruence|].
  destruct (negb (PrimFloat.eqb (c_rate c) 1)).
  - unfold bind, randFloat, ret. intros H. inversion H. reflexivity.
  - unfold ret. congruence.
Qed.

Lemma skip_total (c : Client) (wd : World) :
  exists s wd', skip c wd = Ok (s, wd').
Proof.
  unfold skip. destruct (c_muted c); [unfold ret; eauto|].
  destruct (negb (PrimFloat.eqb (c_rate c) 1)); unfold bind, randFloat, ret;
    eauto.
Qed.

Lemma skip_muted (c : Client) (wd : World) :
  c_muted c = true -> skip c wd = Ok (true, wd).
Proof. intros H. unfold skip. now rewrite H. Qed.

Lemma tagstr_of_result (c : Client) (tags : list string) (l : nat)
  (cn : conn) (wd : World) :
  c_conn c = Some l -> conns wd !! l = Some cn ->
  tagstr_of c tags wd
  = match rbind (mergeTags (c_tags c) tags) (joinTags (tagFormat cn)) with
    | Ok s => Ok (s, wd)
    | Fail f => Fail f
    end.
Proof.
  intros Hp Hl. unfold tagstr_of, bind, get_conn, lift.
  destruct (mergeTags (c_tags c) tags); [|reflexivity].
  rewrite Hp, Hl. reflexivity.
Qed.

Lemma joinTags_failure (tf : TagFormat) (tags : list tag) (f : fault) :
  joinTags tf tags = Fail f -> f = nil_func /\ (2 < tf)%N.
Proof.
  unfold joinTags, joinFuncs, InfluxDB, Datadog.
  destruct (Nat.eqb (length tags) 0 || N.eqb tf 0) eqn:E0; [discriminate|].
  apply orb_false_iff in E0. destruct E0 as [_ E0].
  destruct (N.eqb tf 1) eqn:E1; [discriminate|].
  destruct (N.eqb tf 2) eqn:E2; [discriminate|].
  intros H. split; [congruence|].
  apply N.eqb_neq in E0, E1, E2. lia.
Qed.

Lemma joinTags_total (tf : TagFormat) (tags : list tag) :
  (tf <= 2)%N -> exists s, joinTags tf tags = Ok s.
Proof.
  intros H. destruct (joinTags tf tags) as [s|f] eqn:E; [eauto|].
  apply joinTags_failure in E. lia.
Qed.

Section FacadeProperties.

Variable formatFloat : float -> string.

Lemma metric_call_emit (c : Client) (tags : list string) (op : M unit) :
  metric_call formatFloat c tags op ->
  forall wd, exists b n typ rate, op wd = emit formatFloat c tags b n typ rate wd.
Proof.
  intros H wd. destruct H; try (do 4 eexists; reflexivity).
Qed.

Lemma emit_muted (c : Client) (tags : list string) (b : string) (n : value)
  (typ : string) (rate : float) (wd : World) :
  c_muted c = true -> emit formatFloat c tags b n typ rate wd = Ok (tt, wd).
Proof. intros H. unfold emit, bind. now rewrite skip_muted. Qed.

(** The core's write on a closed connection. *)
Lemma conn_metric_closed (l : nat) (cn : conn) (prefix bucket : string)
  (n : value) (typ : string) (rate : float) (tags : string) (wd : World) :
  conns wd !! l = Some cn -> closed cn = true -> mu cn = false ->
  conn_metric formatFloat (Some l) prefix bucket n typ rate tags wd
  = Ok (tt, wd).
Proof.
  intros H Hc Hm. unfold conn_metric.
  apply (closed_section l cn _ wd H Hm). apply append_closed.
  now destruct cn.
Qed.

Lemma emit_closed (c : Client) (tags : list string) (b : string) (n : value)
  (typ : string) (rate : float) (wd : World) (l : nat) (cn : conn) :
  c_conn c = Some l -> conns wd !! l = Some cn ->
  closed cn = true -> mu cn = false ->
  match emit formatFloat c tags b n typ rate wd with
  | Ok (_, wd') => conns wd' = conns wd
  | Fail f =>
      (f = Panic even_args_msg /\ Nat.odd (length tags) = true) \/
      (f = nil_func /\ (2 < tagFormat cn)%N)
  end.
Proof.
  intros Hp Hl Hc Hm. unfold emit. unfold bind at 1.
  destruct (skip_total c wd) as (s & wd' & Hs). rewrite Hs.
  pose proof (skip_conns _ _ _ _ Hs) as Hcs.
  destruct s; [exact Hcs|].
  assert (Hl' : conns wd' !! l = Some cn) by (now rewrite Hcs).
  unfold bind. rewrite (tagstr_of_result c tags l cn wd' Hp Hl').
  destruct (mergeTags (c_tags c) tags) as [m|f] eqn:Em; cbn [rbind].
  - destruct (joinTags (tagFormat cn) m) as [str|f] eqn:Ej.
    + rewrite Hp, (conn_metric_closed l cn _ _ _ _ _ _ wd' Hl' Hc Hm).
      exact Hcs.
    + right. now apply joinTags_failure in Ej.
  - left. now apply mergeTags_failure in Em.
Qed.

Lemma emit_closed_total (c : Client) (tags : list string) (b : string)
  (n : value) (typ : string) (rate : float) (wd : World) (l : nat)
  (cn : conn) :
  c_conn c = Some l -> conns wd !! l = Some cn ->
  closed cn = true -> mu cn = false ->
  Nat.even (length tags) = true -> (tagFormat cn <= 2)%N ->
  exists wd', emit formatFloat c tags b n typ rate wd = Ok (tt, wd').
Proof.
  intros Hp Hl Hc Hm Hev Htf.
  pose proof (emit_closed c tags b n typ rate wd l cn Hp Hl Hc Hm) as H.
  destruct (emit formatFloat c tags b n typ rate wd) as [[[] wd']|f].
  - eauto.
  - destruct H as [[_ H]|[_ H]].
    + rewrite <- Nat.negb_even, Hev in H. discriminate.
    + lia.
Qed.

Lemma Flush_closed (c : Client) (wd : World) :
  after_close c wd -> Flush c wd = Ok (tt, wd).
Proof.
  intros [Hm|(l & cn & Hp & Hl & Hc & Hm)]; unfold Flush.
  - now rewrite Hm.
  - destruct (c_muted c); [reflexivity|]. rewrite Hp.
    apply (closed_section l cn _ wd Hl Hm). apply flush_closed.
    now destruct cn.
Qed.

Lemma Close_closes (c : Client) (wd wd1 : World) :
  Close c wd = Ok (tt, wd1) -> after_close c wd1.
Proof.
  unfold Close, after_close. destruct (c_muted c) eqn:Hmu; [now left|].
  intros H. right. destruct (c_conn c) as [l|]; [|discriminate].
  unfold bind at 1 in H.
  destruct (conns wd !! l) as [cn|] eqn:Hl.
  2:{ unfold Lock, bind, get_conn in H. rewrite Hl in H. discriminate. }
  destruct (mu cn) eqn:Hm.
  { unfold Lock, bind, get_conn, fail in H. rewrite Hl, Hm in H.
    discriminate. }
  rewrite (Lock_ok l cn wd Hl Hm) in H.
  unfold bind at 1 in H.
  rewrite (modify_conn_ok l _ _ _ (upd_lookup _ _ _)), upd_upd in H.
  unfold bind at 1 in H.
  rewrite (modify_conn_ok l _ _ _ (upd_lookup _ _ _)), upd_upd in H.
  unfold bind at 1 in H.
  rewrite (modify_conn_ok l _ _ _ (upd_lookup _ _ _)), upd_upd in H.
  set (cn' := set_closed true
                (close_transport (flush 0 (set_mu true cn)))) in H.
  assert (Hmu' : mu cn' = true).
  { unfold cn', close_transport.
    destruct (Close_w (w (flush 0 (set_mu true cn)))) as [err t]. simpl.
    destruct (handleError_fields err (set_w t (flush 0 (set_mu true cn))))
      as (_ & _ & _ & _ & H5).
    rewrite H5. simpl. now rewrite (proj2 (proj2 (flush_fields 0 _))). }
  rewrite (Unlock_ok l cn' _ (upd_lookup _ _ _) Hmu'), upd_upd in H.
  inversion H. subst wd1.
  exists l, (set_mu false cn'). repeat split.
  apply upd_lookup.
Qed.

(** C3: once [Close] has returned, a flush and an append on the client
    change nothing, whatever happened in between: [Flush] and the core's
    write return at once with the world as it was, and a metric call
    leaves every connection as it was; no call blocks, and the only panics
    left are those of the caller's tag arguments. *)
Theorem close_then_noop (c : Client) (wd wd1 : World) :
  Close c wd = Ok (tt, wd1) ->
  after_close c wd1 /\
  forall wd2, after_close c wd2 ->
    Flush c wd2 = Ok (tt, wd2) /\
    (c_muted c = false ->
     forall prefix bucket n typ rate tagstr,
       conn_metric formatFloat (c_conn c) prefix bucket n typ rate tagstr wd2
       = Ok (tt, wd2)) /\
    (forall tags op, metric_call formatFloat c tags op ->
       match op wd2 with
       | Ok (_, wd3) => conns wd3 = conns wd2 /\ after_close c wd3
       | Fail f => f = Panic even_args_msg \/ f = nil_func
       end) /\
    (forall tags op, metric_call formatFloat c tags op ->
       Nat.even (length tags) = true ->
       (forall l cn, c_conn c = Some l -> conns wd2 !! l = Some cn ->
                     (tagFormat cn <= 2)%N) ->
       exists wd3, op wd2 = Ok (tt, wd3)).
Proof.
  intros HC. split; [now apply Close_closes in HC|].
  intros wd2 Hac. split; [now apply Flush_closed|].
  split; [|split].
  - intros Hmu prefix bucket n typ rate tagstr.
    destruct Hac as [Hm|(l & cn & Hp & Hl & Hc & Hm)]; [congruence|].
    rewrite Hp. now apply (conn_metric_closed l cn).
  - intros tags op Hop.
    destruct (metric_call_emit c tags op Hop wd2) as (b & n & typ & rate & ->).
    destruct Hac as [Hm|(l & cn & Hp & Hl & Hc & Hm)].
    + rewrite emit_muted by exact Hm. split; [reflexivity|now left].
    + pose proof (emit_closed c tags b n typ rate wd2 l cn Hp Hl Hc Hm) as H.
      destruct (emit formatFloat c tags b n typ rate wd2) as [[u wd3]|f].
      * split; [exact H|]. right. exists l, cn. now rewrite H.
      * destruct H as [[-> _]|[-> _]]; auto.
  - intros tags op Hop Hev Htf.
    destruct (metric_call_emit c tags op Hop wd2) as (b & n & typ & rate & ->).
    destruct Hac as [Hm|(l & cn & Hp & Hl & Hc & Hm)].
    + rewrite emit_muted by exact Hm. eauto.
    + apply (emit_closed_total c tags b n typ rate wd2 l cn); eauto.
Qed.

Lemma New_result (opts : list Option) (conf : config) (wd : World) :
  apply_opts opts default_config = Ok conf ->
  New opts wd
  = match newConn (cfg_Conn conf) (cc_Muted (cfg_Client conf)) wd with
    | Ok ((p, Some e), wd1) =>
        Ok ((mk_Client p true 0%float "" 0%N [], Some e), wd1)
    | Ok ((p, None), wd1) =>
        Ok ((mk_Client p (cc_Muted (cfg_Client conf))
               (cc_Rate (cfg_Client conf)) (cc_Prefix (cfg_Client conf)) 0%N
               (cc_Tags (cfg_Client conf)), None), wd1)
    | Fail f => Fail f
    end.
Proof.
  intros H. unfold New, bind, lift. rewrite H.
  destruct (newConn (cfg_Conn conf) (cc_Muted (cfg_Client conf)) wd)
    as [[[p [e|]] wd1]|f]; reflexivity.
Qed.

Lemma newConn_result (conf : connConfig) (muted : bool) (wd : World) :
  newConn conf muted wd
  = match dial wd (cn_Network conf) (cn_Addr conf) with
    | inl e => Ok ((None, Some e), wd)
    | inr t =>
        Ok ((Some (fresh (dom (conns wd))), None),
            upd (fresh (dom (conns wd)))
              (new_buffer (cn_TagFormat conf) (cn_MaxPacketSize conf)
                 (cn_ErrorHandler conf) t) wd)
    end.
Proof. unfold newConn. destruct (dial wd _ _); reflexivity. Qed.

(** C4: when the connection cannot be opened [New] returns the error of the
    failed construction, that one and only then, with a client that is
    muted: on it every metric call, [Flush] and [Close] return at once and
    leave the world, random source included, as it was; its clones are muted
    as well. *)
Theorem New_failure_mutes (opts : list Option) (conf : config) (wd : World) :
  apply_opts opts default_config = Ok conf ->
  (forall p e wd1,
     newConn (cfg_Conn conf) (cc_Muted (cfg_Client conf)) wd
     = Ok ((p, Some e), wd1) ->
     New opts wd = Ok ((mk_Client p true 0%float "" 0%N [], Some e), wd1)) /\
  (forall e,
     dial wd (cn_Network (cfg_Conn conf)) (cn_Addr (cfg_Conn conf)) = inl e ->
     New opts wd = Ok ((mk_Client None true 0%float "" 0%N [], Some e), wd)) /\
  (forall c e wd1,
     New opts wd = Ok ((c, Some e), wd1) ->
     dial wd (cn_Network (cfg_Conn conf)) (cn_Addr (cfg_Conn conf)) = inl e /\
     c_muted c = true /\
     (forall wd2 tags op, metric_call formatFloat c tags op ->
                          op wd2 = Ok (tt, wd2)) /\
     (forall wd2, Flush c wd2 = Ok (tt, wd2) /\ Close c wd2 = Ok (tt, wd2)) /\
     (forall opts' clone, Clone c opts' = Ok clone -> c_muted clone = true)).
Proof.
  intros Hconf. pose proof (New_result opts conf wd Hconf) as HN.
  split; [|split].
  - intros p e wd1 H. now rewrite HN, H.
  - intros e H. now rewrite HN, newConn_result, H.
  - intros c e wd1 H. rewrite HN, newConn_result in H.
    destruct (dial wd (cn_Network (cfg_Conn conf)) (cn_Addr (cfg_Conn conf)))
      as [e'|t]; [|discriminate].
    inversion H; subst. clear H. split; [reflexivity|].
    split; [reflexivity|]. split; [|split].
    + intros wd2 tags op Hop.
      destruct (metric_call_emit _ tags op Hop wd2)
        as (b & n & typ & rate & ->).
      now apply emit_muted.
    + intros wd2. split; reflexivity.
    + intros opts' clone. unfold Clone.
      destruct (apply_opts opts' _) as [conf'|]; [|discriminate].
      cbn [rbind]. intros Hc. now inversion Hc.
Qed.

(** C10: [Increment] is [Count] with the value 1 and no tags: the same skip
    check, the client's own tags joined, the same write of a counter line. *)
Theorem Increment_is_Count (c : Client) (bucket : string) (wd : World) :
  Increment formatFloat c bucket wd
  = Count formatFloat c bucket (VInt 1) [] wd /\
  Increment formatFloat c bucket wd
  = (s <- skip c ;;
     if s then ret tt
     else cn <- get_conn (c_conn c) ;;
          tagstr <- lift (joinTags (tagFormat cn) (c_tags c)) ;;
          conn_metric formatFloat (c_conn c) (c_prefix c) bucket (VInt 1)
            "c" (c_rate c) tagstr) wd.
Proof.
  split; [reflexivity|].
  unfold Increment, Count. unfold bind at 1 3.
  destruct (skip c wd) as [[[] wd']|f]; try reflexivity.
  unfold tagstr_of, bind. cbn [mergeTags length Nat.modulo Nat.divmod snd
    Nat.eqb negb lift Nat.sub].
  destruct (get_conn (c_conn c) wd') as [[cn wd'']|f]; reflexivity.
Qed.

End FacadeProperties.

(** C9: a clone has the connection of its parent, the same location and
    no new object, and is muted when its parent is, whatever the options
    say. *)
Theorem Clone_muted_shares_conn (c clone : Client) (opts : list Option) :
  Clone c opts = Ok clone ->
  c_conn clone = c_conn c /\
  (c_muted c = true -> c_muted clone = true) /\
  (forall b, Clone c [Mute b]
             = Ok (mk_Client (c_conn c) (c_muted c || b) (c_rate c)
                     (c_prefix c) 0%N (c_tags c))).
Proof.
  unfold Clone at 1.
  destruct (apply_opts opts _) as [conf|]; [|discriminate].
  cbn [rbind]. intros H. inversion H. cbn [c_conn c_muted].
  split; [reflexivity|]. split; [intros ->; reflexivity|].
  intros b. reflexivity.
Qed.

Lemma Clone_muted_shares_conn_witness :
  Clone client_down [Mute false; Prefix "db"]
  = Ok (mk_Client None true 0%float "db." 0%N []) /\
  c_conn (mk_Client None true 0%float "db." 0%N []) = c_conn client_down /\
  c_muted (mk_Client None true 0%float "db." 0%N []) = true.
Proof.
  assert (H : Clone client_down [Mute false; Prefix "db"]
              = Ok (mk_Client None true 0%float "db." 0%N []))
    by reflexivity.
  destruct (Clone_muted_shares_conn _ _ _ H) as (H1 & H2 & _).
  split; [exact H|]. split; [exact H1|]. apply H2. reflexivity.
Defined.

Lemma close_then_noop_witness :
  Close client1 world1 = Ok (tt, world1_closed) /\
  Flush client1 world1_closed = Ok (tt, world1_closed) /\
  conn_metric formatFloat0 (Some 0%nat) "app." "hits" (VInt 1) "c" 1%float ""
    world1_closed = Ok (tt, world1_closed).
Proof.
  assert (H : Close client1 world1 = Ok (tt, world1_closed))
    by (vm_compute; reflexivity).
  destruct (close_then_noop formatFloat0 client1 world1 world1_closed H)
    as [Hac Hall].
  destruct (Hall world1_closed Hac) as (HF & HM & _).
  split; [exact H|]. split; [exact HF|].
  apply (HM eq_refl).
Defined.

Lemma New_failure_mutes_witness :
  New [Network "tcp"] world0 = Ok ((client_down, Some "connection refused"),
                                   world0) /\
  Count formatFloat0 client_down "hits" (VInt 1) ["a"] world1
  = Ok (tt, world1) /\
  Close client_down world1 = Ok (tt, world1).
Proof.
  destruct (New_failure_mutes formatFloat0 [Network "tcp"]
              (mk_config
                 (mk_connConfig ":8125" None (100 * 1000000) 1440 "tcp" 0%N)
                 (mk_clientConfig false 1%float "" []))
              world0 eq_refl) as (_ & H2 & H3).
  pose proof (H2 "connection refused" eq_refl) as HN.
  destruct (H3 _ _ _ HN) as (_ & _ & HM & HF & _).
  split; [exact HN|]. split.
  - apply (HM world1 ["a"]). constructor.
  - apply (HF world1).
Defined.

(** * Further properties of the code *)

(** ** Tags *)

Lemma has_key_In (key : string) (tags : list tag) :
  has_key key tags = true <-> In key (map K tags).
Proof.
  unfold has_key. rewrite existsb_exists, in_map_iff. split.
  - intros (t & Hin & E). apply String.eqb_eq in E. exists t. auto.
  - intros (t & E & Hin). exists t. split; [exact Hin|].
    rewrite E. apply String.eqb_refl.
Qed.

Lemma first_occurrences_In (k : string) (l : list string) :
  In k (first_occurrences l) <-> In k l.
Proof.
  induction l as [|x l IH]; simpl; [tauto|].
  rewrite filter_In, IH. split.
  - intros [H|[H _]]; auto.
  - intros [H|H]; [now left|].
    destruct (String.eqb x k) eqn:E.
    + apply String.eqb_eq in E. now left.
    + right. split; [exact H | reflexivity].
Qed.

Lemma first_occurrences_NoDup (l : list string) :
  List.NoDup (first_occurrences l).
Proof.
  induction l as [|x l IH]; simpl; constructor.
  - rewrite filter_In, String.eqb_refl. intros [_ H]. discriminate.
  - now apply List.NoDup_filter.
Qed.

Lemma merged_keys (tags : list tag) (flat : list string) :
  map K (merged tags flat)
  = (map K tags
     ++ first_occurrences
          (List.filter (fun k => negb (has_key k tags))
             (map fst (pairs_of flat))))%list.
Proof. unfold merged. now rewrite map_app, !map_map, map_id. Qed.

Lemma mergeTags_even (tags : list tag) (flat : list string) :
  Nat.even (length flat) = true -> mergeTags tags flat = Ok (merged tags flat).
Proof.
  intros Hev. unfold mergeTags. rewrite (even_length_mod _ _ Hev). cbn [negb].
  destruct flat as [|x l].
  - cbn. now rewrite merged_nil.
  - cbn [length Nat.eqb]. rewrite merge_loop_merged by exact Hev.
    f_equal. f_equal.
    induction tags as [|t tags IH]; simpl; [reflexivity|].
    rewrite IH. now destruct t.
Qed.

(** X1: merging into a tag list whose keys are unique gives a tag list whose
    keys are unique. *)
Theorem mergeTags_unique_keys (tags out : list tag) (newTags : list string) :
  List.NoDup (map K tags) ->
  mergeTags tags newTags = Ok out ->
  List.NoDup (map K out).
Proof.
  intros Hnd H.
  destruct (Nat.even (length newTags)) eqn:Hev.
  - rewrite (mergeTags_even _ _ Hev) in H. inversion H; subst out.
    rewrite merged_keys. apply List.NoDup_app.
    + exact Hnd.
    + apply first_occurrences_NoDup.
    + intros k Hin Hin'. apply first_occurrences_In, filter_In in Hin'.
      destruct Hin' as [_ Hk]. apply has_key_In in Hin.
      rewrite Hin in Hk. discriminate.
  - unfold mergeTags in H.
    assert (E : Nat.eqb (length newTags mod 2) 0 = false).
    { apply odd_length_mod. now rewrite <- Nat.negb_even, Hev. }
    rewrite E in H. discriminate.
Qed.

Lemma mergeTags_unique_keys_witness :
  List.NoDup (map K [mk_tag "a" "2"; mk_tag "c" "9"; mk_tag "b" "3"]).
Proof.
  apply (mergeTags_unique_keys [mk_tag "a" "1"; mk_tag "c" "9"]
           [mk_tag "a" "2"; mk_tag "c" "9"; mk_tag "b" "3"]
           ["b"; "1"; "a"; "2"; "b"; "3"]).
  - repeat constructor; simpl; intuition discriminate.
  - reflexivity.
Defined.

Lemma lookup_tag_app (key : string) (a b : list tag) :
  lookup_tag key (a ++ b)
  = match lookup_tag key a with
    | Some v => Some v
    | None => lookup_tag key b
    end.
Proof.
  induction a as [|t a IH]; simpl; [reflexivity|].
  destruct (String.eqb key (K t)); [reflexivity|exact IH].
Qed.

Lemma last_value_In (key : string) (ps : list (string * string)) :
  last_value key ps <> None <-> In key (map fst ps).
Proof.
  induction ps as [|[k v] ps IH]; simpl; [tauto|].
  destruct (last_value key ps) as [v'|].
  - split; [intros _; right; apply IH; discriminate | discriminate].
  - destruct (String.eqb key k) eqn:E.
    + apply String.eqb_eq in E. subst. split; [now left | discriminate].
    + apply String.eqb_neq in E. split; [congruence|].
      intros [H|H]; [congruence|]. now apply IH in H.
Qed.

(** X2: in the merged tags a key has the value of its last occurrence in
    the flat sequence and, when the flat sequence does not name it, the
    value the base gave it; a key of neither has none. *)
Theorem mergeTags_lookup (tags out : list tag) (newTags : list string)
  (key : string) :
  mergeTags tags newTags = Ok out ->
  lookup_tag key out
  = match last_value key (pairs_of newTags) with
    | Some v => Some v
    | None => lookup_tag key tags
    end.
Proof.
  intros H.
  destruct (Nat.even (length newTags)) eqn:Hev.
  2:{ unfold mergeTags in H.
      rewrite (odd_length_mod _ newTags) in H; [discriminate|].
      now rewrite <- Nat.negb_even, Hev. }
  rewrite (mergeTags_even _ _ Hev) in H. inversion H; subst out. clear H.
  unfold merged. set (ps := pairs_of newTags). rewrite lookup_tag_app.
  assert (H1 : lookup_tag key
      (map (fun t => {| K := K t;
                        V := value_or (V t) (last_value (K t) ps) |}) tags)
    = match lookup_tag key tags with
      | Some v0 => Some (value_or v0 (last_value key ps))
      | None => None
      end).
  { induction tags as [|t tags IH]; simpl; [reflexivity|].
    destruct (String.eqb key (K t)) eqn:E; [|exact IH].
    apply String.eqb_eq in E. now subst. }
  rewrite H1. clear H1.
  destruct (lookup_tag key tags) as [v0|] eqn:Hl.
  - now destruct (last_value key ps).
  - assert (Hk : has_key key tags = false).
    { clear - Hl. induction tags as [|t tags IH]; simpl in *; [reflexivity|].
      destruct (String.eqb key (K t)); [discriminate|]. now apply IH. }
    set (fresh := first_occurrences
           (List.filter (fun k => negb (has_key k tags)) (map fst ps))).
    assert (H2 : forall l, lookup_tag key
        (map (fun k => {| K := k; V := value_or "" (last_value k ps) |}) l)
      = if existsb (String.eqb key) l
        then Some (value_or "" (last_value key ps)) else None).
    { induction l as [|k l IH]; simpl; [reflexivity|].
      destruct (String.eqb key k) eqn:E; [|exact IH].
      apply String.eqb_eq in E. now subst. }
    rewrite H2. clear H2.
    destruct (existsb (String.eqb key) fresh) eqn:Ex.
    + apply existsb_exists in Ex. destruct Ex as (k & Hin & E).
      apply String.eqb_eq in E. subst k.
      apply first_occurrences_In, filter_In in Hin. destruct Hin as [Hin _].
      apply last_value_In in Hin.
      now destruct (last_value key ps).
    + destruct (last_value key ps) as [v|] eqn:Elv; [|reflexivity].
      exfalso.
      assert (Hin : In key fresh).
      { apply first_occurrences_In, filter_In. split.
        - apply last_value_In. congruence.
        - now rewrite Hk. }
      assert (X : existsb (String.eqb key) fresh = true).
      { apply existsb_exists. exists key. split; [exact Hin|].
        apply String.eqb_refl. }
      congruence.
Qed.

Lemma mergeTags_lookup_witness :
  lookup_tag "b" [mk_tag "a" "2"; mk_tag "c" "9"; mk_tag "b" "3"] = Some "3".
Proof.
  apply (mergeTags_lookup [mk_tag "a" "1"; mk_tag "c" "9"]
           [mk_tag "a" "2"; mk_tag "c" "9"; mk_tag "b" "3"]
           ["b"; "1"; "a"; "2"; "b"; "3"] "b").
  reflexivity.
Defined.

Lemma pairs_of_length (flat : list string) :
  (2 * length (pairs_of flat) <= length flat)%nat.
Proof.
  induction flat as [|x|k v rest IH] using pair_ind; simpl in *; lia.
Qed.

Lemma first_occurrences_length (l : list string) :
  (length (first_occurrences l) <= length l)%nat.
Proof.
  induction l as [|x l IH]; simpl; [lia|].
  pose proof (List.filter_length_le
                (fun y => negb (String.eqb x y)) (first_occurrences l)).
  lia.
Qed.

(** X3: the merge never drops a tag of the base, and adds at most one tag
    for each pair of the flat sequence. *)
Theorem mergeTags_length (tags out : list tag) (newTags : list string) :
  mergeTags tags newTags = Ok out ->
  (length tags <= length out)%nat /\
  (2 * (length out - length tags) <= length newTags)%nat.
Proof.
  intros H.
  destruct (Nat.even (length newTags)) eqn:Hev.
  2:{ unfold mergeTags in H.
      rewrite (odd_length_mod _ newTags) in H; [discriminate|].
      now rewrite <- Nat.negb_even, Hev. }
  rewrite (mergeTags_even _ _ Hev) in H. inversion H; subst out. clear H.
  unfold merged. rewrite length_app, !length_map.
  pose proof (first_occurrences_length
    (List.filter (fun k => negb (has_key k tags))
       (map fst (pairs_of newTags)))) as H1.
  pose proof (List.filter_length_le (fun k => negb (has_key k tags))
                (map fst (pairs_of newTags))) as H2.
  rewrite length_map in H2.
  pose proof (pairs_of_length newTags). lia.
Qed.

Lemma mergeTags_length_witness :
  (length [mk_tag "a" "1"] <= length [mk_tag "a" "2"; mk_tag "b" "3"])%nat /\
  (2 * (length [mk_tag "a" "2"; mk_tag "b" "3"] - length [mk_tag "a" "1"])
   <= length ["a"; "2"; "b"; "3"])%nat.
Proof.
  apply (mergeTags_length [mk_tag "a" "1"] [mk_tag "a" "2"; mk_tag "b" "3"]
           ["a"; "2"; "b"; "3"]).
  reflexivity.
Defined.

Lemma filter_none (A : Type) (p : A -> bool) (l : list A) :
  (forall x, In x l -> p x = false) -> List.filter p l = [].
Proof.
  induction l as [|x l IH]; simpl; intros H; [reflexivity|].
  rewrite (H x) by now left. apply IH. intros y Hy. apply H. now right.
Qed.

Lemma merged_idempotent (tags : list tag) (flat : list string) :
  merged (merged tags flat) flat = merged tags flat.
Proof.
  assert (Hkeys : forall k, In k (map fst (pairs_of flat)) ->
                            has_key k (merged tags flat) = true).
  { intros k Hin. apply has_key_In. rewrite merged_keys. apply in_or_app.
    destruct (has_key k tags) eqn:E.
    - left. now apply has_key_In.
    - right. apply first_occurrences_In, filter_In. split; [exact Hin|].
      now rewrite E. }
  unfold merged at 1. rewrite filter_none.
  2:{ intros k Hin. now rewrite (Hkeys k Hin). }
  cbn [first_occurrences map]. rewrite app_nil_r.
  unfold merged. rewrite map_app, !map_map. f_equal.
  - apply map_ext. intros t. cbn [K V].
    now destruct (last_value (K t) (pairs_of flat)).
  - apply map_ext. intros k. cbn [K V].
    now destruct (last_value k (pairs_of flat)).
Qed.

(** X4: merging the same flat sequence a second time changes nothing. *)
Theorem mergeTags_idempotent (tags out : list tag) (newTags : list string) :
  mergeTags tags newTags = Ok out ->
  mergeTags out newTags = Ok out.
Proof.
  intros H.
  destruct (Nat.even (length newTags)) eqn:Hev.
  2:{ unfold mergeTags in H.
      rewrite (odd_length_mod _ newTags) in H; [discriminate|].
      now rewrite <- Nat.negb_even, Hev. }
  rewrite (mergeTags_even _ _ Hev) in H. inversion H; subst out.
  rewrite (mergeTags_even _ _ Hev). now rewrite merged_idempotent.
Qed.

Lemma mergeTags_idempotent_witness :
  mergeTags [mk_tag "a" "2"; mk_tag "b" "3"] ["a"; "2"; "b"; "3"]
  = Ok [mk_tag "a" "2"; mk_tag "b" "3"].
Proof.
  apply (mergeTags_idempotent [mk_tag "a" "1"]). reflexivity.
Defined.

(** X5: the tags that the option built by [Tags] leaves in a configuration
    are those of its arguments alone: the tags that were configured before
    are dropped, not merged with; with no argument the option changes
    nothing.  A clone made with it loses the tags of its parent. *)
Theorem Tags_replaces (tags : list string) (o : Option) :
  Tags tags = Ok o ->
  (tags = [] -> forall conf, o conf = Ok conf) /\
  (tags <> [] ->
   (forall conf,
      o conf = Ok (mk_config (cfg_Conn conf)
                     (mk_clientConfig (cc_Muted (cfg_Client conf))
                        (cc_Rate (cfg_Client conf))
                        (cc_Prefix (cfg_Client conf)) (merged [] tags)))) /\
   (forall c, Clone c [o]
              = Ok (mk_Client (c_conn c) (c_muted c) (c_rate c) (c_prefix c)
                      0%N (merged [] tags)))).
Proof.
  unfold Tags. intros H.
  destruct (Nat.even (length tags)) eqn:Hev.
  2:{ rewrite (odd_length_mod _ tags) in H; [discriminate|].
      now rewrite <- Nat.negb_even, Hev. }
  rewrite (even_length_mod _ _ Hev) in H. cbn [negb] in H.
  inversion H; subst o. clear H. split.
  - intros -> conf. reflexivity.
  - intros Hne.
    assert (E : Nat.eqb (length tags) 0 = false) by (now destruct tags).
    assert (Ho : forall conf,
      (if Nat.eqb (length tags) 0 then Ok conf
       else rbind (mergeTags [] tags) (fun merged0 =>
              Ok (mk_config (cfg_Conn conf)
                    (mk_clientConfig (cc_Muted (cfg_Client conf))
                       (cc_Rate (cfg_Client conf))
                       (cc_Prefix (cfg_Client conf)) merged0))))
      = Ok (mk_config (cfg_Conn conf)
              (mk_clientConfig (cc_Muted (cfg_Client conf))
                 (cc_Rate (cfg_Client conf))
                 (cc_Prefix (cfg_Client conf)) (merged [] tags)))).
    { intros conf. rewrite E, (mergeTags_even _ _ Hev). reflexivity. }
    split; [exact Ho|].
    intros c. unfold Clone. cbn [apply_opts]. rewrite Ho. cbn [rbind].
    cbn. now rewrite orb_false_r.
Qed.

Lemma Tags_replaces_witness :
  Clone (mk_Client None false 1%float "" 0%N [mk_tag "env" "prod"])
    [match Tags ["a"; "1"] with Ok o => o | Fail _ => Mute false end]
  = Ok (mk_Client None false 1%float "" 0%N [mk_tag "a" "1"]).
Proof.
  destruct (Tags_replaces ["a"; "1"] _ eq_refl) as [_ H].
  destruct (H ltac:(discriminate)) as [_ HC].
  exact (HC (mk_Client None false 1%float "" 0%N [mk_tag "env" "prod"])).
Defined.

(** X6: [joinTags] panics exactly when there are tags to encode and the
    format is none of the two of the table: the entry of [joinFuncs] is nil
    and is called. *)
Theorem joinTags_panics_iff (tf : TagFormat) (tags : list tag) (f : fault) :
  joinTags tf tags = Fail f <-> tags <> [] /\ (2 < tf)%N /\ f = nil_func.
Proof.
  split.
  - intros H. pose proof (joinTags_failure _ _ _ H) as [-> Htf].
    repeat split; [|exact Htf]. intros ->. discriminate.
  - intros (Hne & Htf & ->). unfold joinTags, joinFuncs, InfluxDB, Datadog.
    destruct tags as [|t tags]; [congruence|]. cbn [length Nat.eqb orb].
    destruct (N.eqb_spec tf 0); [lia|].
    destruct (N.eqb_spec tf 1); [lia|].
    destruct (N.eqb_spec tf 2); [lia|]. reflexivity.
Qed.

Lemma rmapM_split_pair_failure (sep : ascii) (l : list string) (f : fault) :
  rmapM (split_pair sep) l = Fail f ->
  f = RuntimeError "index out of range".
Proof.
  induction l as [|x l IH]; simpl; [discriminate|].
  unfold split_pair at 1, Split, index.
  destruct (split_fields sep x) as [hd tl]. cbn [nth_error rbind].
  destruct tl as [|v tl]; cbn [nth_error rbind]; [congruence|].
  destruct (rmapM (split_pair sep) l); cbn [rbind]; [discriminate|].
  intros H. inversion H. subst. now apply IH.
Qed.

(** X7: how [splitTags] can panic.  On a Datadog input of one byte the slice
    [s[2:]] is out of bounds; on an input that is not empty under a format
    outside the table a nil function is called; every other panic is the
    index [kv[1]] of a pair that has no separator. *)
Theorem splitTags_panics (tf : TagFormat) (s : string) :
  (tf = Datadog -> String.length s = 1%nat ->
   splitTags tf s = Fail (RuntimeError "slice bounds out of range")) /\
  (s <> "" -> (2 < tf)%N -> splitTags tf s = Fail nil_func) /\
  (forall f, splitTags tf s = Fail f ->
     (f = RuntimeError "slice bounds out of range" /\ tf = Datadog /\
      String.length s = 1%nat) \/
     (f = nil_func /\ (2 < tf)%N) \/
     f = RuntimeError "index out of range").
Proof.
  split; [|split].
  - intros -> Hl. destruct s as [|a [|b s]]; try discriminate. reflexivity.
  - intros Hne Htf. unfold splitTags, splitFuncs, InfluxDB, Datadog.
    destruct s as [|a s]; [congruence|]. cbn [String.length Nat.eqb orb].
    destruct (N.eqb_spec tf 0); [lia|].
    destruct (N.eqb_spec tf 1); [lia|].
    destruct (N.eqb_spec tf 2); [lia|]. reflexivity.
  - intros f. unfold splitTags, splitFuncs, InfluxDB, Datadog.
    destruct s as [|a s]; [discriminate|]. cbn [String.length Nat.eqb orb].
    destruct (N.eqb_spec tf 0); [discriminate|].
    destruct (N.eqb_spec tf 1).
    + unfold splitInfluxDB. cbn [slice_from rbind]. intros H.
      right; right. now apply rmapM_split_pair_failure in H.
    + destruct (N.eqb_spec tf 2).
      * unfold splitDatadog. destruct s as [|b s]; cbn [slice_from rbind].
        -- intros H. left. inversion H. auto.
        -- intros H. right; right.
           now apply rmapM_split_pair_failure in H.
      * intros H. right; left. split; [congruence|lia].
Qed.

Lemma splitTags_panics_witness :
  splitTags Datadog "|" = Fail (RuntimeError "slice bounds out of range") /\
  splitTags 7%N ",a=1" = Fail nil_func.
Proof.
  split.
  - apply (proj1 (splitTags_panics Datadog "|")); reflexivity.
  - apply (proj1 (proj2 (splitTags_panics 7%N ",a=1"))).
    + discriminate.
    + reflexivity.
Defined.

Lemma tail_str_app (sep : ascii) (a b : list tag) :
  tail_str sep (a ++ b) = tail_str sep a +:+ tail_str sep b.
Proof.
  induction a as [|t a IH]; simpl; [reflexivity|].
  now rewrite IH, append_assoc.
Qed.

(** X8: the encodings are built tag by tag: the InfluxDB encoding of two
    lists put end to end is the two encodings put end to end, and the
    Datadog encoding of a list that is not empty grows by a comma and the
    pair for each tag added behind. *)
Theorem join_append (a b : list tag) :
  joinInfluxDB (a ++ b) = joinInfluxDB a +:+ joinInfluxDB b /\
  (a <> [] -> joinDatadog (a ++ b) = joinDatadog a +:+ tail_str ":" b).
Proof.
  split.
  - now rewrite !joinInfluxDB_tail, tail_str_app.
  - intros Hne. destruct a as [|t a]; [congruence|].
    rewrite <- app_comm_cons, !joinDatadog_tail, tail_str_app.
    now rewrite !append_assoc.
Qed.

Lemma join_append_witness :
  joinDatadog ([mk_tag "a" "1"] ++ [mk_tag "b" "2"])
  = joinDatadog [mk_tag "a" "1"] +:+ ",b:2".
Proof.
  apply (proj2 (join_append [mk_tag "a" "1"] [mk_tag "b" "2"])).
  discriminate.
Defined.

(** ** Options *)

Lemma length_append (a b : string) :
  String.length (a +:+ b) = (String.length a + String.length b)%nat.
Proof. induction a as [|x a IH]; simpl; [reflexivity|]. now rewrite IH. Qed.

Lemma substring_prefix (a b : string) :
  substring 0 (String.length a) (a +:+ b) = a.
Proof.
  induction a as [|x a IH]; simpl.
  - now destruct b.
  - now rewrite IH.
Qed.

Lemma substring_suffix (a b : string) :
  substring (String.length a) (String.length b) (a +:+ b) = b.
Proof.
  induction a as [|x a IH]; simpl; [|exact IH].
  induction b as [|y b IHb]; simpl; [reflexivity|]. now rewrite IHb.
Qed.

Lemma HasSuffix_append (a b : string) : HasSuffix (a +:+ b) b = true.
Proof.
  unfold HasSuffix. rewrite length_append.
  replace (String.length a + String.length b - String.length b)%nat
    with (String.length a) by lia.
  rewrite substring_suffix, String.eqb_refl, andb_true_r.
  apply Nat.leb_le. lia.
Qed.

Lemma TrimSuffix_append (a b : string) : TrimSuffix (a +:+ b) b = a.
Proof.
  unfold TrimSuffix. rewrite HasSuffix_append, length_append.
  replace (String.length a + String.length b - String.length b)%nat
    with (String.length a) by lia.
  apply substring_prefix.
Qed.

(** X9: the prefix that [Prefix] leaves always ends with a dot, is the
    prefix that was there followed by the argument, and a dot that ends the
    argument is not doubled: [Prefix "app."] and [Prefix "app"] are one
    option. *)
Theorem Prefix_dot (p : string) (conf : config) :
  exists conf',
    Prefix p conf = Ok conf' /\
    cfg_Conn conf' = cfg_Conn conf /\
    HasSuffix (cc_Prefix (cfg_Client conf')) "." = true /\
    (HasSuffix p "." = false ->
     cc_Prefix (cfg_Client conf') = cc_Prefix (cfg_Client conf) +:+ p +:+ "."
     /\ Prefix (p +:+ ".") conf = Prefix p conf).
Proof.
  eexists. split; [reflexivity|]. cbn [cfg_Conn cfg_Client cc_Prefix].
  split; [reflexivity|]. split.
  - rewrite <- append_assoc. apply HasSuffix_append.
  - intros H. split.
    + unfold TrimSuffix. now rewrite H.
    + unfold Prefix, on_Client. rewrite TrimSuffix_append.
      unfold TrimSuffix. now rewrite H.
Qed.

Lemma Prefix_dot_witness :
  Prefix "app." default_config = Prefix "app" default_config.
Proof.
  destruct (Prefix_dot "app" default_config) as (conf' & _ & _ & _ & H).
  apply H. reflexivity.
Defined.

Lemma apply_opts_app (a b : list Option) (conf : config) :
  apply_opts (a ++ b) conf = rbind (apply_opts a conf) (apply_opts b).
Proof.
  revert conf. induction a as [|o a IH]; intros conf; simpl; [reflexivity|].
  destruct (o conf); simpl; [apply IH | reflexivity].
Qed.

Lemma conn_option_client (o : Option) (conf : config) :
  conn_option o ->
  exists r, o conf = Ok r /\ cfg_Client r = cfg_Client conf.
Proof. intros []; eexists; split; reflexivity. Qed.

Lemma Tags_option (tags : list string) (o : Option) (conf : config) :
  Tags tags = Ok o ->
  o conf = Ok (mk_config (cfg_Conn conf)
                 (if Nat.eqb (length tags) 0 then cfg_Client conf
                  else mk_clientConfig (cc_Muted (cfg_Client conf))
                         (cc_Rate (cfg_Client conf))
                         (cc_Prefix (cfg_Client conf)) (merged [] tags))).
Proof.
  unfold Tags. intros H.
  destruct (Nat.even (length tags)) eqn:Hev.
  2:{ rewrite (odd_length_mod _ tags) in H; [discriminate|].
      now rewrite <- Nat.negb_even, Hev. }
  rewrite (even_length_mod _ _ Hev) in H. cbn [negb] in H.
  inversion H; subst o. clear H.
  destruct (Nat.eqb (length tags) 0); [now destruct conf|].
  now rewrite (mergeTags_even _ _ Hev).
Qed.

Lemma package_option_client (o : Option) (conf1 conf2 : config) :
  package_option o -> cfg_Client conf1 = cfg_Client conf2 ->
  exists r1 r2, o conf1 = Ok r1 /\ o conf2 = Ok r2 /\
                cfg_Client r1 = cfg_Client r2.
Proof.
  intros [Ho|Ho] E.
  - destruct (conn_option_client o conf1 Ho) as (r1 & H1 & E1).
    destruct (conn_option_client o conf2 Ho) as (r2 & H2 & E2).
    exists r1, r2. repeat split; congruence.
  - destruct Ho as [b|rate|p|tags o Ht].
    + do 2 eexists. repeat split. cbn. now rewrite E.
    + do 2 eexists. repeat split. cbn. now rewrite E.
    + do 2 eexists. repeat split. cbn. now rewrite E.
    + do 2 eexists. split; [apply (Tags_option _ _ _ Ht)|].
      split; [apply (Tags_option _ _ _ Ht)|]. cbn. now rewrite E.
Qed.

Lemma package_options_client (opts : list Option) :
  Forall package_option opts ->
  forall conf1 conf2, cfg_Client conf1 = cfg_Client conf2 ->
  exists r1 r2, apply_opts opts conf1 = Ok r1 /\
                apply_opts opts conf2 = Ok r2 /\
                cfg_Client r1 = cfg_Client r2.
Proof.
  induction 1 as [|o opts Ho _ IH]; intros conf1 conf2 E.
  - exists conf1, conf2. repeat split. exact E.
  - destruct (package_option_client o conf1 conf2 Ho E)
      as (r1 & r2 & H1 & H2 & E').
    destruct (IH r1 r2 E') as (s1 & s2 & G1 & G2 & E'').
    exists s1, s2. cbn [apply_opts]. rewrite H1, H2. cbn [rbind]. auto.
Qed.

(** X10: [Clone] ignores the options of the connection: taking [Address],
    [ErrorHandler], [FlushPeriod], [MaxPacketSize], [Network] or
    [TagsFormat] out of the options, when options of the package follow it,
    gives the same clone. *)
Theorem Clone_ignores_conn_options (c : Client) (opts1 opts2 : list Option)
  (o : Option) :
  conn_option o ->
  Forall package_option opts2 ->
  Clone c (opts1 ++ o :: opts2) = Clone c (opts1 ++ opts2).
Proof.
  intros Ho Hp. unfold Clone. rewrite !apply_opts_app.
  destruct (apply_opts opts1 _) as [conf1|f]; cbn [rbind]; [|reflexivity].
  cbn [apply_opts].
  destruct (conn_option_client o conf1 Ho) as (r & Hr & Er).
  rewrite Hr. cbn [rbind].
  destruct (package_options_client opts2 Hp r conf1 Er)
    as (s1 & s2 & H1 & H2 & E).
  rewrite H1, H2. cbn [rbind]. now rewrite E.
Qed.

Lemma Clone_ignores_conn_options_witness :
  Clone client1 ([Prefix "db"] ++ TagsFormat InfluxDB :: [Mute true])
  = Clone client1 ([Prefix "db"] ++ [Mute true]).
Proof.
  apply Clone_ignores_conn_options.
  - constructor.
  - constructor; [|constructor]. right. constructor.
Defined.

(** ** Client calls *)

Lemma same_env_refl (wd : World) : same_env wd wd.
Proof. repeat split. Qed.

Lemma same_env_trans (a b c : World) :
  same_env a b -> same_env b c -> same_env a c.
Proof.
  intros (H1 & H2 & H3 & H4) (G1 & G2 & G3 & G4).
  repeat split; congruence.
Qed.

Lemma env_bind (A B : Type) (m : M A) (k : A -> M B) :
  env_preserving m -> (forall a, env_preserving (k a)) ->
  env_preserving (bind m k).
Proof.
  intros Hm Hk wd b wd'. unfold bind.
  destruct (m wd) as [[a wd1]|f] eqn:E; [|discriminate].
  intros H. eapply same_env_trans; [eapply Hm | eapply Hk]; eauto.
Qed.

Lemma env_ret (A : Type) (a : A) : env_preserving (ret a).
Proof. intros wd a' wd' H. inversion H. apply same_env_refl. Qed.

Lemma env_fail (A : Type) (f : fault) : env_preserving (@fail A f).
Proof. intros wd a wd' H. discriminate. Qed.

Lemma env_lift (A : Type) (r : result A) : env_preserving (lift r).
Proof.
  intros wd a wd'. unfold lift. destruct r; [|discriminate].
  intros H. inversion H. apply same_env_refl.
Qed.

Lemma env_get_conn (p : option nat) : env_preserving (get_conn p).
Proof.
  intros wd a wd'. unfold get_conn. destruct p as [l|]; [|discriminate].
  destruct (conns wd !! l); [|discriminate].
  intros H. inversion H. apply same_env_refl.
Qed.

Lemma env_put_conn (p : option nat) (cn : conn) :
  env_preserving (put_conn p cn).
Proof.
  intros wd a wd'. unfold put_conn. destruct p as [l|]; [|discriminate].
  intros H. inversion H. repeat split.
Qed.

Lemma env_now : env_preserving now.
Proof. intros wd a wd' H. inversion H. apply same_env_refl. Qed.

Lemma env_modify_conn (p : option nat) (f : conn -> conn) :
  env_preserving (modify_conn p f).
Proof.
  apply env_bind; [apply env_get_conn|]. intros cn. apply env_put_conn.
Qed.

Lemma env_Lock (p : option nat) : env_preserving (Lock p).
Proof.
  apply env_bind; [apply env_get_conn|]. intros cn.
  destruct (mu cn); [apply env_fail | apply env_put_conn].
Qed.

Lemma env_Unlock (p : option nat) : env_preserving (Unlock p).
Proof.
  apply env_bind; [apply env_get_conn|]. intros cn.
  destruct (mu cn); [apply env_put_conn | apply env_fail].
Qed.

Lemma env_tagstr_of (c : Client) (tags : list string) :
  env_preserving (tagstr_of c tags).
Proof.
  apply env_bind; [apply env_lift|]. intros m.
  apply env_bind; [apply env_get_conn|]. intros cn. apply env_lift.
Qed.

Lemma env_Flush (c : Client) : env_preserving (Flush c).
Proof.
  unfold Flush. destruct (c_muted c); [apply env_ret|].
  apply env_bind; [apply env_Lock|]. intros _.
  apply env_bind; [apply env_modify_conn|]. intros _. apply env_Unlock.
Qed.

Lemma env_Close (c : Client) : env_preserving (Close c).
Proof.
  unfold Close. destruct (c_muted c); [apply env_ret|].
  apply env_bind; [apply env_Lock|]. intros _.
  apply env_bind; [apply env_modify_conn|]. intros _.
  apply env_bind; [apply env_modify_conn|]. intros _.
  apply env_bind; [apply env_modify_conn|]. intros _. apply env_Unlock.
Qed.

Lemma skip_result (c : Client) (wd : World) :
  skip c wd
  = if c_muted c then Ok (true, wd)
    else if PrimFloat.eqb (c_rate c) 1 then Ok (false, wd)
    else Ok (PrimFloat.ltb (c_rate c) (rand wd (rand_next wd)), drawn wd).
Proof.
  unfold skip. destruct (c_muted c); [reflexivity|].
  destruct (PrimFloat.eqb (c_rate c) 1); reflexivity.
Qed.

Lemma set_mu_flush (b : bool) (d : Z) (cn : conn) :
  flush d (set_mu b cn) = set_mu b (flush d cn).
Proof.
  unfold flush. cbn [closed pendingBytes w set_mu].
  destruct (closed cn); [reflexivity|].
  destruct (len (pendingBytes cn) =? 0); [reflexivity|].
  destruct (Write (w cn) (pendingBytes cn)) as [err t].
  unfold handleError. cbn. destruct err, (errorHandler cn); reflexivity.
Qed.

Lemma set_mu_close_transport (b : bool) (cn : conn) :
  close_transport (set_mu b cn) = set_mu b (close_transport cn).
Proof.
  unfold close_transport. cbn [w set_mu].
  destruct (Close_w (w cn)) as [err t].
  unfold handleError. cbn. destruct err, (errorHandler cn); reflexivity.
Qed.

Lemma close_conn_fields (cn : conn) :
  closed (close_conn cn) = true /\ mu (close_conn cn) = mu cn /\
  t_open (w (close_conn cn)) = false /\
  t_closes (w (close_conn cn)) = S (t_closes (w cn)).
Proof.
  unfold close_conn, close_transport.
  destruct (Close_w (w (flush 0 cn))) as [err t] eqn:Hc.
  destruct (handleError_fields err (set_w t (flush 0 cn)))
    as (_ & _ & _ & H4 & H5).
  cbn [closed mu w set_closed]. rewrite H4, H5.
  cbn [w mu set_w]. rewrite (proj2 (proj2 (flush_fields 0 cn))).
  unfold Close_w in Hc. destruct (next_fault (w (flush 0 cn))).
  inversion Hc; subst. cbn [t_open t_closes].
  repeat split. f_equal.
  unfold flush. destruct (closed cn); [reflexivity|].
  destruct (len (pendingBytes cn) =? 0); [reflexivity|].
  destruct (Write (w cn) (pendingBytes cn)) as [err' t'] eqn:Hw.
  destruct (handleError_fields err' (set_pendingBytes "" (set_w t' cn)))
    as (_ & _ & _ & G4 & _).
  rewrite G4. cbn [w set_pendingBytes set_w].
  unfold Write in Hw. destruct (next_fault (w cn)). now inversion Hw.
Qed.

(** X11: [Close] on a client that is not muted, whose connection's mutex is
    free, flushes, closes the transport and marks the connection closed,
    under the lock and on that connection only, and leaves the mutex free.
    It does not look at the [closed] flag: on a connection that is closed
    already the transport's [Close] is called once more. *)
Theorem Close_live (c : Client) (l : nat) (cn : conn) (wd : World) :
  c_muted c = false -> c_conn c = Some l ->
  conns wd !! l = Some cn -> mu cn = false ->
  Close c wd = Ok (tt, upd l (close_conn cn) wd) /\
  closed (close_conn cn) = true /\ mu (close_conn cn) = false /\
  t_closes (w (close_conn cn)) = S (t_closes (w cn)) /\
  (forall l', l' <> l ->
     conns (upd l (close_conn cn) wd) !! l' = conns wd !! l').
Proof.
  intros Hmu Hp Hl Hm.
  destruct (close_conn_fields cn) as (H1 & H2 & _ & H4).
  split; [|split; [exact H1|split; [congruence|split; [exact H4|]]]].
  - unfold Close. rewrite Hmu, Hp.
    unfold bind at 1. rewrite (Lock_ok l cn wd Hl Hm).
    unfold bind at 1.
    rewrite (modify_conn_ok l _ _ _ (upd_lookup _ _ _)), upd_upd.
    unfold bind at 1.
    rewrite (modify_conn_ok l _ _ _ (upd_lookup _ _ _)), upd_upd.
    unfold bind at 1.
    rewrite (modify_conn_ok l _ _ _ (upd_lookup _ _ _)), upd_upd.
    rewrite set_mu_flush, set_mu_close_transport.
    assert (E : set_closed true (set_mu true (close_transport (flush 0 cn)))
                = set_mu true (close_conn cn)) by reflexivity.
    rewrite E.
    rewrite (Unlock_ok l (set_mu true (close_conn cn)) _
               (upd_lookup _ _ _) eq_refl), upd_upd.
    rewrite set_mu_back by congruence. reflexivity.
  - intros l' Hne. unfold upd, set_conns. cbn [conns].
    now apply lookup_insert_ne.
Qed.

Lemma Close_live_witness :
  Close client1 world1_closed
  = Ok (tt, upd 0 (close_conn (close_conn
                     (new_buffer Datadog 20 None fresh_transport))) world1_closed)
  /\ t_closes (w (close_conn (close_conn
                    (new_buffer Datadog 20 None fresh_transport)))) = 2%nat.
Proof.
  pose proof (Close_live client1 0
                (close_conn (new_buffer Datadog 20 None fresh_transport))
                world1_closed eq_refl eq_refl eq_refl eq_refl)
    as (H & _ & _ & H4 & _).
  split; [exact H | exact H4].
Defined.

(** X12: [Flush] in each case.  On a muted client it does nothing; on a
    nil connection it panics; on a mutex that is held it blocks; otherwise
    it flushes the connection under the lock, leaves the mutex free and
    every other connection as it was. *)
Theorem Flush_cases (c : Client) (wd : World) :
  (c_muted c = true -> Flush c wd = Ok (tt, wd)) /\
  (c_muted c = false -> c_conn c = None -> Flush c wd = Fail nil_func) /\
  (forall l cn, c_muted c = false -> c_conn c = Some l ->
     conns wd !! l = Some cn ->
     (mu cn = true -> Flush c wd = Fail Deadlock) /\
     (mu cn = false ->
      Flush c wd = Ok (tt, upd l (flush 0 cn) wd) /\
      mu (flush 0 cn) = false /\
      forall l', l' <> l ->
        conns (upd l (flush 0 cn) wd) !! l' = conns wd !! l')).
Proof.
  split; [|split].
  - intros H. unfold Flush. now rewrite H.
  - intros H Hp. unfold Flush. now rewrite H, Hp.
  - intros l cn Hmu Hp Hl. split; intros Hm.
    + unfold Flush. rewrite Hmu, Hp. unfold bind at 1.
      unfold Lock, bind, get_conn, fail. now rewrite Hl, Hm.
    + split; [|split].
      * unfold Flush. rewrite Hmu, Hp.
        rewrite (locked_section l cn (flush 0) wd Hl Hm).
        -- rewrite set_mu_flush, set_mu_back; [reflexivity|].
           now rewrite (proj2 (proj2 (flush_fields 0 cn))).
        -- now rewrite (proj2 (proj2 (flush_fields 0 _))).
      * now rewrite (proj2 (proj2 (flush_fields 0 cn))).
      * intros l' Hne. unfold upd, set_conns. cbn [conns].
        now apply lookup_insert_ne.
Qed.

Lemma Flush_cases_witness :
  Flush client_down world1 = Ok (tt, world1) /\
  Flush client1 world1
  = Ok (tt, upd 0 (flush 0 (new_buffer Datadog 20 None fresh_transport))
              world1).
Proof.
  split.
  - apply (proj1 (Flush_cases client_down world1)). reflexivity.
  - exact (proj1 (proj2 (proj2 (proj2 (Flush_cases client1 world1)) 0%nat
                     (new_buffer Datadog 20 None fresh_transport)
                     eq_refl eq_refl eq_refl) eq_refl)).
Defined.

(** X13: closing an unmuted clone is closing its parent's connection: the
    clone's [Close] and [Flush] are the parent's, and after the clone's
    [Close] the connection of the parent is closed. *)
Theorem Close_clone_closes_parent (c clone : Client) (opts : list Option)
  (wd : World) :
  Clone c opts = Ok clone ->
  c_muted clone = false ->
  Close clone wd = Close c wd /\ Flush clone wd = Flush c wd /\
  (forall wd1, Close clone wd = Ok (tt, wd1) ->
               conn_closed (c_conn c) wd1).
Proof.
  unfold Clone. destruct (apply_opts opts _) as [conf|]; [|discriminate].
  cbn [rbind]. intros H Hmu. inversion H; subst clone. clear H.
  cbn [c_muted] in Hmu. apply orb_false_iff in Hmu. destruct Hmu as [Hc Hm].
  assert (E : forall x, Close (mk_Client (c_conn c)
        (c_muted c || cc_Muted (cfg_Client conf)) (cc_Rate (cfg_Client conf))
        (cc_Prefix (cfg_Client conf)) 0%N (cc_Tags (cfg_Client conf))) x
      = Close c x).
  { intros x. unfold Close. cbn [c_muted c_conn]. now rewrite Hc, Hm. }
  split; [apply E|]. split.
  - unfold Flush. cbn [c_muted c_conn]. now rewrite Hc, Hm.
  - intros wd1 H. rewrite E in H. apply Close_closes in H.
    destruct H as [H|H]; [congruence|exact H].
Qed.

Lemma Close_clone_closes_parent_witness :
  Close (mk_Client (Some 0%nat) false 1%float "app.db." 0%N []) world1
  = Close client1 world1.
Proof.
  exact (proj1 (Close_clone_closes_parent client1
                  (mk_Client (Some 0%nat) false 1%float "app.db." 0%N [])
                  [Prefix "db"] world1 eq_refl eq_refl)).
Defined.

Section CallProperties.

Variable formatFloat : float -> string.

Lemma env_conn_metric (p : option nat) (prefix bucket : string) (n : value)
  (typ : string) (rate : float) (tags : string) :
  env_preserving (conn_metric formatFloat p prefix bucket n typ rate tags).
Proof.
  unfold conn_metric. apply env_bind; [apply env_Lock|]. intros _.
  apply env_bind; [apply env_modify_conn|]. intros _. apply env_Unlock.
Qed.

(** X14: a muted client does nothing at all: every metric call, [Flush] and
    [Close] return the world as it was.  The tags are not looked at, so that
    an odd number of them does not panic, the connection is not touched, so
    that a nil one does no harm, and no random number is drawn. *)
Theorem muted_noop (c : Client) (wd : World) :
  c_muted c = true ->
  (forall tags op, metric_call formatFloat c tags op -> op wd = Ok (tt, wd)) /\
  Flush c wd = Ok (tt, wd) /\ Close c wd = Ok (tt, wd).
Proof.
  intros Hm. split; [|split].
  - intros tags op Hop.
    destruct (metric_call_emit formatFloat c tags op Hop wd)
      as (b & n & typ & rate & ->).
    now apply emit_muted.
  - unfold Flush. now rewrite Hm.
  - unfold Close. now rewrite Hm.
Qed.

(** X15: on a client that is not muted and has a connection, a metric call
    with an odd number of tag arguments panics with the message of [Tags],
    before the connection's mutex is taken, unless sampling skips the call:
    then it returns and the tags are never looked at. *)
Theorem odd_tags_panic (c : Client) (l : nat) (cn : conn) (wd wd' : World)
  (tags : list string) (op : M unit) (s : bool) :
  c_muted c = false -> c_conn c = Some l -> conns wd !! l = Some cn ->
  metric_call formatFloat c tags op ->
  Nat.odd (length tags) = true ->
  skip c wd = Ok (s, wd') ->
  op wd = if s then Ok (tt, wd') else Fail (Panic even_args_msg).
Proof.
  intros Hmu Hp Hl Hop Hodd Hs.
  destruct (metric_call_emit formatFloat c tags op Hop wd)
    as (b & n & typ & rate & ->).
  unfold emit. unfold bind at 1. rewrite Hs. destruct s; [reflexivity|].
  assert (Hl' : conns wd' !! l = Some cn)
    by (now rewrite (skip_conns _ _ _ _ Hs)).
  unfold bind. rewrite (tagstr_of_result c tags l cn wd' Hp Hl').
  unfold mergeTags. rewrite (odd_length_mod _ _ Hodd). reflexivity.
Qed.

(** X16: a metric call that returns has drawn one random number when the
    client is not muted and its rate is not 1, and none otherwise; it has
    changed neither the random source, nor the clock, nor the network. *)
Theorem metric_call_draws (c : Client) (tags : list string) (op : M unit)
  (wd wd' : World) (u : unit) :
  metric_call formatFloat c tags op ->
  op wd = Ok (u, wd') ->
  rand wd' = rand wd /\ clock wd' = clock wd /\ dial wd' = dial wd /\
  rand_next wd'
  = (rand_next wd
     + if c_muted c || PrimFloat.eqb (c_rate c) 1 then 0 else 1)%nat.
Proof.
  intros Hop.
  destruct (metric_call_emit formatFloat c tags op Hop wd)
    as (b & n & typ & rate & ->).
  unfold emit. unfold bind at 1. rewrite skip_result.
  assert (Hrest : forall w0 w1 x,
    (tagstr <- tagstr_of c tags ;;
     conn_metric formatFloat (c_conn c) (c_prefix c) b n typ rate tagstr) w0
    = Ok (x, w1) -> same_env w0 w1).
  { intros w0 w1 x. apply env_bind; [apply env_tagstr_of|].
    intros str. apply env_conn_metric. }
  destruct (c_muted c); cbn [orb].
  - intros H. inversion H. rewrite Nat.add_0_r. auto.
  - destruct (PrimFloat.eqb (c_rate c) 1).
    + intros H. apply Hrest in H. destruct H as (H1 & H2 & H3 & H4).
      rewrite Nat.add_0_r. auto.
    + destruct (PrimFloat.ltb (c_rate c) (rand wd (rand_next wd))).
      * intros H. inversion H. cbn. repeat split. lia.
      * intros H. apply Hrest in H. destruct H as (H1 & H2 & H3 & H4).
        cbn in *. repeat split; try assumption. lia.
Qed.

(** X17: a call that sampling skips does nothing but draw its number: when
    the client is not muted, its rate is not 1 and the number drawn is
    greater than the rate, the call returns with the random source one
    step further and nothing else changed, whatever the tags and the
    connection are. *)
Theorem sampled_out (c : Client) (tags : list string) (op : M unit)
  (wd : World) :
  c_muted c = false ->
  PrimFloat.eqb (c_rate c) 1 = false ->
  PrimFloat.ltb (c_rate c) (rand wd (rand_next wd)) = true ->
  metric_call formatFloat c tags op ->
  op wd = Ok (tt, drawn wd).
Proof.
  intros Hmu Hr Hd Hop.
  destruct (metric_call_emit formatFloat c tags op Hop wd)
    as (b & n & typ & rate & ->).
  unfold emit. unfold bind at 1. rewrite skip_result, Hmu, Hr, Hd.
  reflexivity.
Qed.

(** X18: [Send] reports the whole milliseconds between [NewTiming] and
    itself: when the clock has moved on by [d] nanoseconds (a duration that
    int64 holds), it is the call of [Timing] with [d / 1000000] and no
    tags. *)
Theorem NewTiming_Send (c : Client) (wd wd1 : World) (t : TimingObj)
  (d : Z) (bucket : string) :
  NewTiming c wd = Ok (t, wd1) ->
  0 <= d <= 2 ^ 63 - 1 ->
  wd1 = wd /\ t_c t = c /\
  forall wd2, clock wd2 = clock wd + d ->
    Send formatFloat t bucket wd2
    = Timing formatFloat c bucket (VInt (d / 1000000)) [] wd2.
Proof.
  unfold NewTiming, bind, now, ret. intros H Hd. inversion H; subst.
  repeat split. intros wd2 Hc.
  unfold Send, Duration, bind, now, ret. cbn [start t_c].
  rewrite Hc.
  replace (Sub (clock wd1 + d) (clock wd1)) with d.
  - rewrite Z.quot_div_nonneg by lia. reflexivity.
  - unfold Sub. replace (clock wd1 + d - clock wd1) with d by lia. lia.
Qed.

End CallProperties.

Lemma muted_noop_witness :
  Count formatFloat0 client_down "hits" (VInt 1) ["odd"] world1
  = Ok (tt, world1).
Proof.
  apply (proj1 (muted_noop formatFloat0 client_down world1 eq_refl) ["odd"]).
  constructor.
Defined.

Lemma odd_tags_panic_witness :
  Gauge formatFloat0 client1 "load" (VInt 3) ["odd"] world1
  = Fail (Panic even_args_msg).
Proof.
  apply (odd_tags_panic formatFloat0 client1 0
           (new_buffer Datadog 20 None fresh_transport) world1 world1
           ["odd"] _ false); try reflexivity.
  constructor.
Defined.

Lemma metric_call_draws_witness :
  rand_next (drawn world1)
  = (rand_next world1 + 1)%nat.
Proof.
  pose proof (metric_call_draws formatFloat0
                (mk_Client (Some 0%nat) false 0.25%float "" 0%N [])
                [] _ world1 (drawn world1) tt
                (call_Increment formatFloat0 _ "hits") eq_refl)
    as (_ & _ & _ & H).
  exact H.
Defined.

Lemma sampled_out_witness :
  Count formatFloat0 (mk_Client None false 0.25%float "" 0%N []) "hits"
    (VInt 1) ["odd"] world1 = Ok (tt, drawn world1).
Proof.
  apply (sampled_out formatFloat0
           (mk_Client None false 0.25%float "" 0%N []) ["odd"]);
    try reflexivity.
  constructor.
Defined.

Lemma NewTiming_Send_witness :
  Send formatFloat0 (mk_Timing 0 client1) "req" (at_time 2500000 world1)
  = Timing formatFloat0 client1 "req" (VInt 2) [] (at_time 2500000 world1).
Proof.
  destruct (NewTiming_Send formatFloat0 client1 world1 world1
              (mk_Timing 0 client1) 2500000 "req" eq_refl) as (_ & _ & H).
  - lia.
  - apply H. reflexivity.
Defined.

(** ** What a caller gets back *)

Example Count_nil_conn_odd_tags :
  Count formatFloat0 (mk_Client None false 1%float "" 0%N []) "hits" (VInt 1)
    ["odd"] world0 = Fail (Panic even_args_msg).
Proof. reflexivity. Qed.

Example Flush_write_error_handled :
  exists wd', Flush client1 world_faulty = Ok (tt, wd') /\
    option_map handled (conns wd' !! 0%nat)
    = Some ["write: connection refused"] /\
    option_map pendingBytes (conns wd' !! 0%nat) = Some "".
Proof. eexists. split; [reflexivity|]. split; reflexivity. Qed.

Lemma ready_conns (c : Client) (wd wd' : World) :
  conns wd' = conns wd -> ready c wd -> ready c wd'.
Proof.
  intros E [H|(l & cn & H1 & H2 & H3 & H4)]; [now left|].
  right. exists l, cn. rewrite E. auto.
Qed.

Lemma ready_upd (c : Client) (l : nat) (cn : conn) (wd : World) :
  c_conn c = Some l -> mu cn = false -> (tagFormat cn <= 2)%N ->
  ready c (upd l cn wd).
Proof.
  intros Hp Hm Htf. right. exists l, cn.
  split; [exact Hp|]. split; [apply upd_lookup|]. auto.
Qed.

Lemma set_mu_push_line (b : bool) (line : string) (cn : conn) :
  push_line line (set_mu b cn) = set_mu b (push_line line cn).
Proof.
  unfold push_line. cbn [pendingBytes set_mu].
  destruct (len (pendingBytes cn) =? 0); reflexivity.
Qed.

Lemma set_mu_append (b : bool) (line : string) (cn : conn) :
  append line (set_mu b cn) = set_mu b (append line cn).
Proof.
  unfold append. cbn [closed pendingBytes maxSize set_mu].
  destruct (closed cn); [reflexivity|].
  destruct ((len (pendingBytes cn) + len line + 1 >? maxSize cn)
            && negb (len (pendingBytes cn) =? 0)).
  - rewrite set_mu_flush, set_mu_push_line.
    destruct (len line >? maxSize cn); [apply set_mu_flush | reflexivity].
  - rewrite set_mu_push_line.
    destruct (len line >? maxSize cn); [apply set_mu_flush | reflexivity].
Qed.

Lemma flush_tagFormat (d : Z) (cn : conn) :
  tagFormat (flush d cn) = tagFormat cn.
Proof.
  unfold flush. destruct (closed cn); [reflexivity|].
  destruct (len (pendingBytes cn) =? 0); [reflexivity|].
  destruct (Write (w cn) (pendingBytes cn)) as [err t].
  unfold handleError. cbn. destruct err, (errorHandler cn); reflexivity.
Qed.

Lemma push_line_tagFormat (line : string) (cn : conn) :
  tagFormat (push_line line cn) = tagFormat cn.
Proof.
  unfold push_line. destruct (len (pendingBytes cn) =? 0); reflexivity.
Qed.

Lemma append_keeps (line : string) (cn : conn) :
  tagFormat (append line cn) = tagFormat cn /\ mu (append line cn) = mu cn.
Proof.
  unfold append. destruct (closed cn); [auto|].
  repeat match goal with
  | |- context [if ?b then _ else _] => destruct b
  end;
  rewrite ?flush_tagFormat, ?push_line_tagFormat, ?flush_tagFormat,
    ?(proj2 (proj2 (flush_fields _ _))),
    ?(proj2 (proj2 (proj2 (push_line_fields _ _)))),
    ?(proj2 (proj2 (flush_fields _ _))); auto.
Qed.

Lemma close_conn_tagFormat (cn : conn) :
  tagFormat (close_conn cn) = tagFormat cn.
Proof.
  unfold close_conn, close_transport.
  destruct (Close_w (w (flush 0 cn))) as [err t].
  unfold handleError. cbn [set_w errorHandler].
  destruct err, (errorHandler (flush 0 cn)); cbn; apply flush_tagFormat.
Qed.

Lemma Flush_unlocked (c : Client) (l : nat) (cn : conn) (wd : World) :
  c_muted c = false -> c_conn c = Some l ->
  conns wd !! l = Some cn -> mu cn = false ->
  Flush c wd = Ok (tt, upd l (flush 0 cn) wd).
Proof.
  intros Hmu Hp Hl Hm. unfold Flush. rewrite Hmu, Hp.
  rewrite (locked_section l cn (flush 0) wd Hl Hm).
  - rewrite set_mu_flush, set_mu_back; [reflexivity|].
    now rewrite (proj2 (proj2 (flush_fields 0 cn))).
  - now rewrite (proj2 (proj2 (flush_fields 0 _))).
Qed.

Lemma Close_unlocked (c : Client) (l : nat) (cn : conn) (wd : World) :
  c_muted c = false -> c_conn c = Some l ->
  conns wd !! l = Some cn -> mu cn = false ->
  Close c wd = Ok (tt, upd l (close_conn cn) wd).
Proof.
  intros Hmu Hp Hl Hm.
  destruct (close_conn_fields cn) as (_ & H2 & _).
  unfold Close. rewrite Hmu, Hp.
  unfold bind at 1. rewrite (Lock_ok l cn wd Hl Hm).
  unfold bind at 1.
  rewrite (modify_conn_ok l _ _ _ (upd_lookup _ _ _)), upd_upd.
  unfold bind at 1.
  rewrite (modify_conn_ok l _ _ _ (upd_lookup _ _ _)), upd_upd.
  unfold bind at 1.
  rewrite (modify_conn_ok l _ _ _ (upd_lookup _ _ _)), upd_upd.
  rewrite set_mu_flush, set_mu_close_transport.
  assert (E : set_closed true (set_mu true (close_transport (flush 0 cn)))
              = set_mu true (close_conn cn)) by reflexivity.
  rewrite E.
  rewrite (Unlock_ok l (set_mu true (close_conn cn)) _
             (upd_lookup _ _ _) eq_refl), upd_upd.
  rewrite set_mu_back by congruence. reflexivity.
Qed.

Lemma New_panic (opts : list Option) (wd : World) (f : fault) :
  New opts wd = Fail f -> apply_opts opts default_config = Fail f.
Proof.
  destruct (apply_opts opts default_config) as [conf|f'] eqn:E.
  - rewrite (New_result opts conf wd E), newConn_result.
    destruct (dial wd _ _); discriminate.
  - unfold New, bind, lift. rewrite E. congruence.
Qed.

Lemma New_error (opts : list Option) (wd wd1 : World) (c : Client)
  (e : error) :
  New opts wd = Ok ((c, Some e), wd1) ->
  exists conf, apply_opts opts default_config = Ok conf /\
    dial wd (cn_Network (cfg_Conn conf)) (cn_Addr (cfg_Conn conf)) = inl e.
Proof.
  destruct (apply_opts opts default_config) as [conf|f'] eqn:E.
  - rewrite (New_result opts conf wd E), newConn_result.
    destruct (dial wd _ _) as [e'|t] eqn:Ed; [|discriminate].
    intros H. inversion H; subst. exists conf. auto.
  - unfold New, bind, lift. rewrite E. discriminate.
Qed.

Lemma New_ready (opts : list Option) (conf : config) (wd wd1 : World)
  (c : Client) (err : option error) :
  apply_opts opts default_config = Ok conf ->
  (cn_TagFormat (cfg_Conn conf) <= 2)%N ->
  New opts wd = Ok ((c, err), wd1) -> ready c wd1.
Proof.
  intros E Htf. rewrite (New_result opts conf wd E), newConn_result.
  destruct (dial wd _ _) as [e'|t]; intros H; inversion H; subst.
  - now left.
  - apply ready_upd; auto.
Qed.

Section SurfacedErrors.

Variable formatFloat : float -> string.

Lemma conn_metric_live (l : nat) (cn : conn) (prefix bucket : string)
  (n : value) (typ : string) (rate : float) (tags : string) (wd : World) :
  conns wd !! l = Some cn -> mu cn = false ->
  conn_metric formatFloat (Some l) prefix bucket n typ rate tags wd
  = Ok (tt, upd l (append (encodeLine formatFloat (prefix +:+ bucket) n typ
                             rate tags) cn) wd).
Proof.
  intros Hl Hm. unfold conn_metric.
  rewrite (locked_section l cn _ wd Hl Hm).
  - rewrite set_mu_append, set_mu_back; [reflexivity|].
    now rewrite (proj2 (append_keeps _ cn)).
  - now rewrite (proj2 (append_keeps _ _)).
Qed.

Lemma emit_ready (c : Client) (tags : list string) (b : string) (n : value)
  (typ : string) (rate : float) (wd : World) :
  ready c wd ->
  match emit formatFloat c tags b n typ rate wd with
  | Ok (_, wd') => ready c wd'
  | Fail f => f = Panic even_args_msg /\ Nat.odd (length tags) = true
  end.
Proof.
  intros Hr. destruct (c_muted c) eqn:Hmu.
  { rewrite emit_muted by exact Hmu. exact Hr. }
  destruct Hr as [Hr|(l & cn & Hp & Hl & Hm & Htf)]; [congruence|].
  unfold emit. unfold bind at 1.
  destruct (skip_total c wd) as (s & wd1 & Hs). rewrite Hs.
  pose proof (skip_conns _ _ _ _ Hs) as Hcs.
  assert (Hl1 : conns wd1 !! l = Some cn) by (now rewrite Hcs).
  destruct s.
  { right. exists l, cn. auto. }
  unfold bind. rewrite (tagstr_of_result c tags l cn wd1 Hp Hl1).
  destruct (mergeTags (c_tags c) tags) as [m|f] eqn:Em; cbn [rbind].
  - destruct (joinTags_total (tagFormat cn) m Htf) as [str Hj]. rewrite Hj.
    rewrite Hp, (conn_metric_live l cn _ _ _ _ _ _ wd1 Hl1 Hm).
    apply ready_upd; [exact Hp| |].
    + now rewrite (proj2 (append_keeps _ cn)).
    + now rewrite (proj1 (append_keeps _ cn)).
  - now apply mergeTags_failure in Em.
Qed.

(** C6, as amended: on a flat sequence of odd length [mergeTags], and [Tags],
    panic at the call with the message of the invalid argument.  On a
    client that is muted, or has a connection with a free mutex and a tag
    format of the table, nothing else is handed to the caller of a metric
    call, of [Flush] or of [Close]: a metric call fails with that panic
    only, and only on an odd number of tags; [Flush] and [Close] return,
    whatever the transport answers to the write and to the close; and the
    client is as fit for the next call.  [New], besides, returns an error:
    that of the connection that could not be opened, and it panics only
    where one of its options does. *)
Theorem only_InvalidArgument_surfaces :
  (forall tags newTags,
     Nat.odd (length newTags) = true ->
     mergeTags tags newTags = Fail (Panic even_args_msg) /\
     Tags newTags = Fail (Panic even_args_msg)) /\
  (forall c wd,
     ready c wd ->
     (forall tags op, metric_call formatFloat c tags op ->
        match op wd with
        | Ok (_, wd') => ready c wd'
        | Fail f => f = Panic even_args_msg /\ Nat.odd (length tags) = true
        end) /\
     (exists wd', Flush c wd = Ok (tt, wd') /\ ready c wd') /\
     (exists wd', Close c wd = Ok (tt, wd') /\ ready c wd')) /\
  (forall opts wd,
     (forall f, New opts wd = Fail f ->
                apply_opts opts default_config = Fail f) /\
     (forall c e wd1, New opts wd = Ok ((c, Some e), wd1) ->
        exists conf, apply_opts opts default_config = Ok conf /\
          dial wd (cn_Network (cfg_Conn conf)) (cn_Addr (cfg_Conn conf))
          = inl e) /\
     (forall c err wd1 conf,
        New opts wd = Ok ((c, err), wd1) ->
        apply_opts opts default_config = Ok conf ->
        (cn_TagFormat (cfg_Conn conf) <= 2)%N -> ready c wd1)).
Proof.
  split; [|split].
  - intros tags newTags. apply mergeTags_odd.
  - intros c wd Hr. split; [|split].
    + intros tags op Hop.
      destruct (metric_call_emit formatFloat c tags op Hop wd)
        as (b & n & typ & rate & ->).
      now apply emit_ready.
    + destruct (c_muted c) eqn:Hmu.
      * exists wd. split; [|exact Hr]. unfold Flush. now rewrite Hmu.
      * destruct Hr as [Hr|(l & cn & Hp & Hl & Hm & Htf)]; [congruence|].
        exists (upd l (flush 0 cn) wd).
        split; [now apply Flush_unlocked|].
        apply ready_upd; [exact Hp| |].
        -- now rewrite (proj2 (proj2 (flush_fields 0 cn))).
        -- now rewrite flush_tagFormat.
    + destruct (c_muted c) eqn:Hmu.
      * exists wd. split; [|exact Hr]. unfold Close. now rewrite Hmu.
      * destruct Hr as [Hr|(l & cn & Hp & Hl & Hm & Htf)]; [congruence|].
        exists (upd l (close_conn cn) wd).
        split; [now apply Close_unlocked|].
        apply ready_upd; [exact Hp| |].
        -- destruct (close_conn_fields cn) as (_ & H2 & _). congruence.
        -- now rewrite close_conn_tagFormat.
  - intros opts wd. split; [|split].
    + intros f. apply New_panic.
    + intros c e wd1. apply New_error.
    + intros c err wd1 conf HN E Htf. eapply New_ready; eauto.
Qed.

End SurfacedErrors.

Lemma only_InvalidArgument_surfaces_witness :
  (mergeTags [mk_tag "a" "1"] ["a"; "2"; "b"] = Fail (Panic even_args_msg) /\
   Tags ["a"; "2"; "b"] = Fail (Panic even_args_msg)) /\
  (exists wd', Flush client1 world_faulty = Ok (tt, wd') /\
               ready client1 wd') /\
  (exists wd', Close client1 world_faulty = Ok (tt, wd') /\
               ready client1 wd').
Proof.
  destruct (only_InvalidArgument_surfaces formatFloat0) as (H1 & H2 & _).
  split; [apply (H1 [mk_tag "a" "1"] ["a"; "2"; "b"]); reflexivity|].
  assert (Hr : ready client1 world_faulty).
  { right. eexists 0%nat, _. repeat split. vm_compute. discriminate. }
  destruct (H2 client1 world_faulty Hr) as (_ & HF & HC).
  split; [exact HF | exact HC].
Defined.

(** C6, as it is stated, fails twice over: [New] hands the error of a
    connection that could not be opened to its caller, and under a tag
    format outside the table a metric call with tags ends in the runtime's
    panic on a nil function. *)
Lemma not_only_InvalidArgument :
  ~ surfaces_only_InvalidArgument (New [Network "tcp"] world0) /\
  New [Network "tcp"] world0
  = Ok ((client_down, Some "connection refused"), world0) /\
  Count formatFloat0 client1 "hits" (VInt 1) ["a"; "1"] world_format7
  = Fail nil_func.
Proof.
  split; [vm_compute; exact (fun H => H)|]. split; reflexivity.
Qed.
